(** * denbust: the seen ledger, the similarity grouper and the pipeline

    A shallow embedding of the core of [denbust]
    ([store/seen.py], [dedup/similarity.py], [classifier/relevance.py],
    [pipeline.py], [data_models.py], [config.py], the keyword filter of
    [sources/rss.py]) and the properties its specification states about it,
    followed by further properties of the same code.

    Conventions of the embedding:
    - a Python [str] is a [string]; one character of the model stands for one
      code point (the Latin-1 range);
    - a [datetime] is its POSIX timestamp, an integer count of microseconds
      (the resolution of [datetime]); the float that [timestamp()] returns
      is read as that exact number;
    - a [float] similarity ratio or threshold is the rational it denotes;
    - a [dict] keyed by strings is a [gmap string _];
    - code that may raise returns an [outcome];
    - the clock, the file system, the network and the two standard-library
      parsers ([json.loads], [datetime.fromisoformat]) are explicit
      arguments. *)

From Stdlib Require Import ZArith QArith String Ascii List Lia Permutation.
From stdpp Require Import base option list sorting gmap strings sets fin_maps.

#[local] Set Warnings "-clear-no-such-hyp".

Local Open Scope string_scope.
Local Open Scope list_scope.
Local Open Scope Z_scope.

(** ** Results of code that may raise *)

Inductive exn :=
| AttributeError | TypeError | ValueError | KeyError
| UnicodeDecodeError | JSONDecodeError | OSError | APIError.

Global Instance exn_eq_dec : EqDecision exn.
Proof. solve_decision. Defined.

(** [IllTyped] marks a run that would bind a value outside the declared
    type of a variable (the ledger file can hold any JSON under ["urls"],
    the store declares [dict[str, str]]); such a run is not followed
    further. *)
Inductive outcome (A : Type) :=
| Return (a : A)
| Raise (e : exn)
| IllTyped.
Arguments Return {A} a.
Arguments Raise {A} e.
Arguments IllTyped {A}.

Global Instance outcome_bind : MBind outcome := λ A B k m,
  match m with
  | Return a => k a
  | Raise e => Raise e
  | IllTyped => IllTyped
  end.

(** ** JSON values, as [json.load] builds them *)

#[local] Unset Elimination Schemes.
Inductive json :=
| JNull
| JBool (b : bool)
| JNum (n : Z)
| JStr (s : string)
| JArr (items : list json)
| JObj (members : list (string * json)).
#[local] Set Elimination Schemes.

(** The [dict] built from an object: a repeated key keeps its last value. *)
Definition to_dict (members : list (string * json)) : gmap string json :=
  list_to_map (reverse members).

(** [data.get(key, default)]; only a [dict] has [get]. *)
Definition dict_get (data : json) (key : string) (dflt : json) : outcome json :=
  match data with
  | JObj members => Return (default dflt (to_dict members !! key))
  | _ => Raise AttributeError
  end.

(** [len(v)]: an object counts its distinct keys; [None], booleans and
    numbers have no length. *)
Definition len (v : json) : outcome nat :=
  match v with
  | JObj members => Return (size (to_dict members))
  | JArr items => Return (length items)
  | JStr s => Return (String.length s)
  | _ => Raise TypeError
  end.

Definition as_str (v : json) : option string :=
  match v with JStr s => Some s | _ => None end.

(** A JSON value read at the type [dict[str, str]]. *)
Definition as_str_dict (v : json) : option (gmap string string) :=
  match v with
  | JObj members =>
      let d := to_dict members in
      if decide (map_Forall (λ _ x, is_Some (as_str x)) d)
      then Some (omap as_str d) else None
  | _ => None
  end.

(** The object [json.dump] writes for a [dict[str, str]]. *)
Definition of_str_dict (d : gmap string string) : json :=
  JObj (map_to_list (JStr <$> d)).

(** ** The file system

    A file is what opening it and handing it to [json.load] gives. *)
Inductive file :=
| Unreadable            (* [open] or the read raises [OSError] *)
| Undecodable           (* bytes that are no text: [UnicodeDecodeError] *)
| NotJson               (* text [json.load] rejects: [JSONDecodeError] *)
| Json (data : json).   (* text [json.load] parses to [data] *)

(** Paths that exist, with their files. *)
Abbreviation disk := (gmap string file).

Definition json_load (f : file) : outcome json :=
  match f with
  | Unreadable => Raise OSError
  | Undecodable => Raise UnicodeDecodeError
  | NotJson => Raise JSONDecodeError
  | Json data => Return data
  end.

(** What a [save] meets when it writes. *)
Inductive save_io :=
| WriteOk
| MkdirFails            (* [mkdir] of the parent raises *)
| OpenFails             (* [open(path, "w")] raises [OSError] *)
| WriteFails.           (* the file is opened (truncated), the write breaks off *)

(** ** data_models.py *)
Module Models.

Inductive Category :=
| BROTHEL | PROSTITUTION | PIMPING | TRAFFICKING | ENFORCEMENT | NOT_RELEVANT.

Inductive SubCategory :=
| CLOSURE | OPENING      (* brothel *)
| ARREST | FINE          (* prostitution *)
| SENTENCE               (* pimping/trafficking *)
| RESCUE                 (* trafficking *)
| OPERATION | OTHER.     (* enforcement *)

(** The values of the two [StrEnum]s. *)
Definition Category_value (c : Category) : string :=
  match c with
  | BROTHEL => "brothel" | PROSTITUTION => "prostitution"
  | PIMPING => "pimping" | TRAFFICKING => "trafficking"
  | ENFORCEMENT => "enforcement" | NOT_RELEVANT => "not_relevant"
  end.

Definition SubCategory_value (s : SubCategory) : string :=
  match s with
  | CLOSURE => "closure" | OPENING => "opening"
  | ARREST => "arrest" | FINE => "fine"
  | SENTENCE => "sentence" | RESCUE => "rescue"
  | OPERATION => "operation" | OTHER => "other"
  end.

Global Instance Category_eq_dec : EqDecision Category.
Proof. solve_decision. Defined.
Global Instance SubCategory_eq_dec : EqDecision SubCategory.
Proof. solve_decision. Defined.

Record RawArticle := {
  url : string;
  title : string;
  snippet : string;
  date : Z;
  source_name : string;
}.

Record ClassificationResult := {
  relevant : bool;
  category : Category;
  sub_category : option SubCategory;
  confidence : string;
}.

Record ClassifiedArticle := {
  article : RawArticle;
  classification : ClassificationResult;
}.

Record SourceReference := {
  ref_source_name : string;
  ref_url : string;
}.

Record UnifiedItem := {
  headline : string;
  summary : string;
  sources : list SourceReference;
  item_date : Z;
  item_category : Category;
  item_sub_category : option SubCategory;
}.

End Models.

(** ** store/seen.py *)
Module Seen.

(** One second, in the unit of timestamps. *)
Definition second : Z := 1000000.

Record SeenStore := {
  _path : string;
  _seen : gmap string string;   (* url -> first_seen_timestamp *)
}.

(** [_load]: the value bound to [self._seen]. The log line after the
    assignment takes its [len], inside the [try]. *)
Definition _load (path : string) (d : disk) : outcome json :=
  match d !! path with
  | None => Return (JObj [])
  | Some f =>
      match
        data ← json_load f;
        urls ← dict_get data "urls" (JObj []);
        _ ← len urls;
        Return urls
      with
      | Raise JSONDecodeError | Raise OSError => Return (JObj [])
      | r => r
      end
  end.

(** [SeenStore(path)]. *)
Definition __init__ (path : string) (d : disk) : outcome SeenStore :=
  v ← _load path d;
  match as_str_dict v with
  | Some seen => Return {| _path := path; _seen := seen |}
  | None => IllTyped
  end.

Definition create_seen_store := __init__.

(** [save]; [now] is [datetime.now(UTC).isoformat()]. *)
Definition save (io : save_io) (now : string) (self : SeenStore) (d : disk)
  : outcome disk :=
  match io with
  | MkdirFails => Raise OSError
  | OpenFails => Return d
  | WriteFails => Return (<[_path self := NotJson]> d)
  | WriteOk =>
      let data := JObj [("urls", of_str_dict (_seen self));
                        ("updated_at", JStr now)] in
      Return (<[_path self := Json data]> d)
  end.

Definition is_seen (self : SeenStore) (url : string) : bool :=
  bool_decide (url ∈ dom (_seen self)).

(** [mark_seen]; [now] is [datetime.now(UTC).isoformat()]. *)
Definition mark_seen (now : string) (self : SeenStore) (urls : list string)
  : SeenStore :=
  fold_left
    (λ st url,
       if is_seen st url then st
       else {| _path := _path st; _seen := <[url := now]> (_seen st) |})
    urls self.

Definition filter_unseen (self : SeenStore) (urls : list string) : list string :=
  filter (λ url, is_seen self url = false) urls.

Definition count (self : SeenStore) : nat := size (_seen self).

Definition clear (self : SeenStore) : SeenStore :=
  {| _path := _path self; _seen := ∅ |}.

Section Prune.
(** [datetime.fromisoformat(ts).timestamp()], [None] for [ValueError]. *)
Variable fromisoformat : string -> option Z.

Definition _parse_timestamp (ts : string) : Z :=
  match fromisoformat ts with
  | Some t => t
  | None => 0
  end.

(** [prune_older_than]; [now] is [datetime.now(UTC).timestamp()]. The
    store after the call, and the returned count. *)
Definition prune_older_than (now : Z) (self : SeenStore) (days : Z)
  : SeenStore * Z :=
  if bool_decide (days ≤ 0)%Z then (self, 0)
  else
    let cutoff := now - days * 86400 * second in
    let old_count := size (_seen self) in
    let kept := filter (λ kv, (cutoff < _parse_timestamp kv.2)%Z) (_seen self) in
    ({| _path := _path self; _seen := kept |},
     Z.of_nat old_count - Z.of_nat (size kept)).
End Prune.

End Seen.

(** ** difflib.SequenceMatcher(None, a, b), the standard library's matcher

    [isjunk] is [None], so no element is junk and the two loops of
    [find_longest_match] that extend a match over junk never run;
    [autojunk] is left at its default, [True]. *)
Module Difflib.
Local Open Scope nat_scope.
Local Open Scope list_scope.

Definition Match := (nat * nat * nat)%type.
Definition size_of (m : Match) : nat := m.2.

Definition match_le (x y : Match) : Prop :=
  let '(i1, j1, k1) := x in
  let '(i2, j2, k2) := y in
  i1 < i2 ∨ (i1 = i2 ∧ (j1 < j2 ∨ (j1 = j2 ∧ k1 ≤ k2))).

Global Instance match_le_dec : RelDecision match_le.
Proof. intros [[i1 j1] k1] [[i2 j2] k2]. unfold match_le. apply _. Defined.

Section Matcher.
Variables a b : list ascii.

(** The indices of [elt] in [b], ascending. *)
Definition positions (elt : ascii) : list nat :=
  filter (λ j, b !! j = Some elt) (seq 0 (length b)).

(** [__chain_b]: in a [b] of 200 elements or more, an element that fills
    more than 1% of it (plus one) is popular, and dropped from [b2j]. *)
Definition popular (elt : ascii) : bool :=
  let n := length b in
  (200 <=? n) && (n / 100 + 1 <? length (positions elt)).

Definition b2j (elt : ascii) : list nat :=
  if popular elt then [] else positions elt.

(** [j2len.get(j-1, 0)] *)
Definition j2lenget (j2len : gmap nat nat) (j : nat) : nat :=
  match j with
  | O => 0
  | S j' => default 0 (j2len !! j')
  end.

(** The inner loop of [find_longest_match], over the indices of [a[i]]
    in [b]: [continue] below [blo], [break] from [bhi] on. *)
Fixpoint scan_row (blo bhi i : nat) (j2len : gmap nat nat) (js : list nat)
    (newj2len : gmap nat nat) (best : Match) : gmap nat nat * Match :=
  match js with
  | [] => (newj2len, best)
  | j :: js' =>
      if j <? blo then scan_row blo bhi i j2len js' newj2len best
      else if bhi <=? j then (newj2len, best)
      else
        let k := j2lenget j2len j + 1 in
        let best' := if size_of best <? k then (i + 1 - k, j + 1 - k, k)
                     else best in
        scan_row blo bhi i j2len js' (<[j := k]> newj2len) best'
  end.

Definition scan_rows (alo ahi blo bhi : nat) : gmap nat nat * Match :=
  fold_left
    (λ st i, scan_row blo bhi i st.1 (from_option b2j [] (a !! i)) ∅ st.2)
    (seq alo (ahi - alo)) (∅, (alo, blo, 0)).

(** [while besti > alo and bestj > blo and a[besti-1] == b[bestj-1]] *)
Fixpoint extend_left (alo blo besti bestj bestsize : nat) : Match :=
  match besti, bestj with
  | S i', S j' =>
      if (alo <? besti) && (blo <? bestj)
         && bool_decide (a !! i' = b !! j')
      then extend_left alo blo i' j' (S bestsize)
      else (besti, bestj, bestsize)
  | _, _ => (besti, bestj, bestsize)
  end.

(** [while besti+bestsize < ahi and bestj+bestsize < bhi and
    a[besti+bestsize] == b[bestj+bestsize]]; the loop runs at most
    [ahi - (besti+bestsize)] times, which is the [fuel] it is given. *)
Fixpoint extend_right (fuel ahi bhi besti bestj bestsize : nat) : Match :=
  match fuel with
  | O => (besti, bestj, bestsize)
  | S fuel' =>
      if (besti + bestsize <? ahi) && (bestj + bestsize <? bhi)
         && bool_decide (a !! (besti + bestsize) = b !! (bestj + bestsize))
      then extend_right fuel' ahi bhi besti bestj (S bestsize)
      else (besti, bestj, bestsize)
  end.

Definition find_longest_match (alo ahi blo bhi : nat) : Match :=
  let '(besti, bestj, bestsize) := (scan_rows alo ahi blo bhi).2 in
  let '(besti, bestj, bestsize) := extend_left alo blo besti bestj bestsize in
  extend_right (ahi - (besti + bestsize)) ahi bhi besti bestj bestsize.

(** The work list of [get_matching_blocks]. The head of [queue] is the
    end of the Python list ([pop] takes it, [append] puts it there).
    [None]: out of fuel. *)
Fixpoint drain (fuel : nat) (queue : list (nat * nat * nat * nat))
    (matching_blocks : list Match) : option (list Match) :=
  match queue with
  | [] => Some matching_blocks
  | (alo, ahi, blo, bhi) :: queue =>
      match fuel with
      | O => None
      | S fuel' =>
          let '(i, j, k) := find_longest_match alo ahi blo bhi in
          if k =? 0 then drain fuel' queue matching_blocks
          else
            let queue :=
              if (alo <? i) && (blo <? j) then (alo, i, blo, j) :: queue
              else queue in
            let queue :=
              if (i + k <? ahi) && (j + k <? bhi)
              then (i + k, ahi, j + k, bhi) :: queue
              else queue in
            drain fuel' queue (matching_blocks ++ [(i, j, k)])
      end
  end.

(** The loop that collapses adjacent blocks; the state is
    [non_adjacent] and the open block [(i1, j1, k1)]. *)
Definition collapse_step (st : list Match * Match) (m : Match)
  : list Match * Match :=
  let '(non_adjacent, (i1, j1, k1)) := st in
  let '(i2, j2, k2) := m in
  if (i1 + k1 =? i2) && (j1 + k1 =? j2) then (non_adjacent, (i1, j1, k1 + k2))
  else ((if k1 =? 0 then non_adjacent else non_adjacent ++ [(i1, j1, k1)]),
        (i2, j2, k2)).

Definition collapse (blocks : list Match) : list Match :=
  let '(non_adjacent, (i1, j1, k1)) :=
    fold_left collapse_step blocks ([], (0, 0, 0)) in
  (if k1 =? 0 then non_adjacent else non_adjacent ++ [(i1, j1, k1)])
  ++ [(length a, length b, 0)].

(** The fuel covers every run of the work list ([drain_total]). *)
Definition raw_blocks : option (list Match) :=
  drain (2 * length a + 1) [(0, length a, 0, length b)] [].

Definition get_matching_blocks : list Match :=
  collapse (merge_sort match_le (default [] raw_blocks)).

Definition matches : nat := sum_list (size_of <$> get_matching_blocks).

(** [_calculate_ratio(matches, len(a) + len(b))] *)
Definition ratio : Q :=
  let length := length a + length b in
  if length =? 0 then 1%Q
  else (2 * Z.of_nat matches # Pos.of_nat length)%Q.
End Matcher.

End Difflib.

(** [str.lower()] on the Latin-1 range: A-Z and the accented capitals
    (all of 192-222 but the multiplication sign, 215) move up by 32. *)
Definition lower_char (c : ascii) : ascii :=
  let n := nat_of_ascii c in
  if ((65 <=? n) && (n <=? 90)
      || (192 <=? n) && (n <=? 222) && negb (n =? 215))%nat
  then ascii_of_nat (n + 32) else c.

Definition lower (s : string) : list ascii :=
  lower_char <$> list_ascii_of_string s.

(** A loop whose body may raise: [for x in xs: st = body(st, x)]. *)
Fixpoint for_each {S A} (body : S -> A -> outcome S) (xs : list A) (st : S)
  : outcome S :=
  match xs with
  | [] => Return st
  | x :: xs' => st' ← body st x; for_each body xs' st'
  end.

(** A comprehension whose element may raise: [[f(x) for x in xs]]. *)
Fixpoint map_each {A B} (f : A -> outcome B) (xs : list A) : outcome (list B) :=
  match xs with
  | [] => Return []
  | x :: xs' => y ← f x; ys ← map_each f xs'; Return (y :: ys)
  end.

(** ** dedup/similarity.py *)
Module Similarity.
Import Models.
Local Open Scope list_scope.

Record ArticleGroup := { articles : list ClassifiedArticle }.

Definition ArticleGroup__init__ (article : ClassifiedArticle) : ArticleGroup :=
  {| articles := [article] |}.

Definition add (article : ClassifiedArticle) (self : ArticleGroup) : ArticleGroup :=
  {| articles := articles self ++ [article] |}.

(** The key of [primary]: [(len(a.article.snippet), -a.article.date.timestamp())]. *)
Definition key (a : ClassifiedArticle) : nat * Z :=
  (String.length (snippet (article a)), - date (article a))%Z.

(** Tuples compare lexicographically. *)
Definition key_lt (x y : nat * Z) : bool :=
  (x.1 <? y.1)%nat || ((x.1 =? y.1)%nat && (x.2 <? y.2)%Z).

(** [max(xs, key=key)]: the first of the maximal elements; [ValueError]
    on an empty list. *)
Definition max_by_key (xs : list ClassifiedArticle) : outcome ClassifiedArticle :=
  match xs with
  | [] => Raise ValueError
  | x :: xs' =>
      Return (fold_left (λ best y, if key_lt (key best) (key y) then y else best)
                        xs' x)
  end.

Definition primary (self : ArticleGroup) : outcome ClassifiedArticle :=
  max_by_key (articles self).

Definition group_headline (self : ArticleGroup) : outcome string :=
  p ← primary self; Return (title (article p)).

(** [Deduplicator]; its one field is [_threshold]. *)
Record Deduplicator := { _threshold : Q }.

Definition default_similarity_threshold : Q := 7 # 10.

Definition Deduplicator__init__ (similarity_threshold : option Q) : Deduplicator :=
  {| _threshold := default default_similarity_threshold similarity_threshold |}.


(** [SequenceMatcher(None, title1, title2).ratio()] on the lowered titles. *)
Definition title_ratio (article1 article2 : ClassifiedArticle) : Q :=
  Difflib.ratio (lower (title (article article1)))
                (lower (title (article article2))).

Definition _is_similar (self : Deduplicator) (article1 article2 : ClassifiedArticle)
  : bool :=
  Qle_bool (_threshold self) (title_ratio article1 article2).

(** [_find_matching_group] returns the group itself; the model returns its
    index in [groups], which is where [group] then adds the article. *)
Fixpoint _find_matching_group (self : Deduplicator) (article : ClassifiedArticle)
    (groups : list ArticleGroup) : outcome (option nat) :=
  match groups with
  | [] => Return None
  | g :: groups' =>
      p ← primary g;
      if _is_similar self article p then Return (Some 0%nat)
      else r ← _find_matching_group self article groups';
           Return (option_map S r)
  end.

(** The body of the loop of [group]. *)
Definition group_step (self : Deduplicator) (groups : list ArticleGroup)
    (article : ClassifiedArticle) : outcome (list ArticleGroup) :=
  matching_group ← _find_matching_group self article groups;
  match matching_group with
  | Some i => Return (alter (add article) i groups)
  | None => Return (groups ++ [ArticleGroup__init__ article])
  end.

Definition group (self : Deduplicator) (articles : list ClassifiedArticle)
  : outcome (list ArticleGroup) :=
  match articles with
  | [] => Return []
  | _ => for_each (group_step self) articles []
  end.

Definition _group_to_unified (g : ArticleGroup) : outcome UnifiedItem :=
  p ← primary g;
  let sources :=
    (λ a, {| ref_source_name := source_name (article a);
             ref_url := url (article a) |}) <$> articles g in
  Return {| headline := title (article p);
            summary := snippet (article p);
            sources := sources;
            item_date := date (article p);
            item_category := category (classification p);
            item_sub_category := sub_category (classification p) |}.

Definition deduplicate (self : Deduplicator) (articles : list ClassifiedArticle)
  : outcome (list UnifiedItem) :=
  groups ← group self articles;
  map_each _group_to_unified groups.

End Similarity.

(** ** The string methods [_parse_response] calls *)

(** [str.isspace()] on the Latin-1 range. *)
Definition isspace (c : ascii) : bool :=
  let n := nat_of_ascii c in
  ((9 <=? n) && (n <=? 13) || (28 <=? n) && (n <=? 32)
   || (n =? 133) || (n =? 160))%nat.

Fixpoint lstrip (s : list ascii) : list ascii :=
  match s with
  | c :: s' => if isspace c then lstrip s' else s
  | [] => []
  end.

(** [text.strip()] *)
Definition strip (text : string) : string :=
  string_of_list_ascii
    (reverse (lstrip (reverse (lstrip (list_ascii_of_string text))))).

Definition newline : string := String "010" "".

(** [text.split("\n")]: never empty. *)
Fixpoint split_lines (text : string) : list string :=
  match text with
  | EmptyString => [""]
  | String c text' =>
      let rest := split_lines text' in
      if bool_decide (c = "010"%char) then "" :: rest
      else match rest with
           | line :: lines => String c line :: lines
           | [] => [String c ""]
           end
  end.

(** [bool(v)] *)
Definition truthy (v : json) : bool :=
  match v with
  | JNull => false
  | JBool b => b
  | JNum n => negb (n =? 0)%Z
  | JStr s => negb (bool_decide (s = ""))
  | JArr items => negb (bool_decide (items = []))
  | JObj members => negb (bool_decide (members = []))
  end.

(** ** classifier/relevance.py *)
Module Relevance.
Import Models.
Local Open Scope list_scope.

(** [Category(value)]: the member with that value, [None] for
    [ValueError]. *)
Definition Category_of (v : json) : option Category :=
  match v with
  | JStr s =>
      find (λ c, bool_decide (Category_value c = s))
        [BROTHEL; PROSTITUTION; PIMPING; TRAFFICKING; ENFORCEMENT; NOT_RELEVANT]
  | _ => None
  end.

(** [SubCategory(value)]: the member with that value, [None] for
    [ValueError]. *)
Definition SubCategory_of (v : json) : option SubCategory :=
  match v with
  | JStr s =>
      find (λ c, bool_decide (SubCategory_value c = s))
        [CLOSURE; OPENING; ARREST; FINE; SENTENCE; RESCUE; OPERATION; OTHER]
  | _ => None
  end.

(** The sub-categories [CLASSIFICATION_PROMPT] lists under each category. *)
Definition prompt_sub_categories (c : Category) : list SubCategory :=
  match c with
  | BROTHEL => [CLOSURE; OPENING]
  | PROSTITUTION => [ARREST; FINE]
  | PIMPING => [ARREST; SENTENCE]
  | TRAFFICKING => [ARREST; RESCUE; SENTENCE]
  | ENFORCEMENT => [OPERATION; OTHER]
  | NOT_RELEVANT => []
  end.

(** The result of a failed classification. *)
Definition not_relevant_low : ClassificationResult :=
  {| relevant := false; category := NOT_RELEVANT;
     sub_category := None; confidence := "low" |}.

Section Classifier.
(** [json.loads], [None] for [JSONDecodeError]. *)
Variable json_loads : string -> option json.
(** [self._client.messages.create] for the prompt made of a title and a
    snippet, up to the text of the first block of the response ([""]
    when there is none). *)
Variable messages_create : string -> string -> outcome string.

(** The text handed to [json.loads]: stripped, and without the fence of
    a markdown code block. *)
Definition unfenced (text : string) : string :=
  let text := strip text in
  if String.prefix "```" text then
    let lines := split_lines text in
    String.concat newline
      (if bool_decide (last lines = Some "```")
       then removelast (tail lines) else tail lines)
  else text.

(** The body of the [try] of [_parse_response], from [data] on. *)
Definition parse_data (data : json) : outcome ClassificationResult :=
  category_str ← dict_get data "category" (JStr "not_relevant");
  let category := default NOT_RELEVANT (Category_of category_str) in
  sub_category_str ← dict_get data "sub_category" JNull;
  let sub_category :=
    if truthy sub_category_str then SubCategory_of sub_category_str
    else None in
  confidence ← dict_get data "confidence" (JStr "medium");
  let confidence :=
    match as_str confidence with
    | Some c => if bool_decide (c ∈ ["high"; "medium"; "low"]) then c
                else "medium"
    | None => "medium"
    end in
  relevant ← dict_get data "relevant" (JBool false);
  Return {| relevant := truthy relevant; category := category;
            sub_category := sub_category; confidence := confidence |}.

Definition _parse_response (text : string) : outcome ClassificationResult :=
  match json_loads (unfenced text) with
  | None => Return not_relevant_low
  | Some data =>
      match parse_data data with
      | Raise JSONDecodeError | Raise KeyError => Return not_relevant_low
      | r => r
      end
  end.

(** [snippet[:300]] *)
Definition first_300 (snippet : string) : string :=
  string_of_list_ascii (take 300 (list_ascii_of_string snippet)).

Definition classify (article : RawArticle) : outcome ClassificationResult :=
  match
    text ← messages_create (title article) (first_300 (snippet article));
    _parse_response text
  with
  | Raise APIError => Return not_relevant_low
  | r => r
  end.

Definition classify_batch (articles : list RawArticle)
  : outcome (list ClassifiedArticle) :=
  map_each
    (λ article,
       classification ← classify article;
       Return {| article := article; classification := classification |})
    articles.
End Classifier.

End Relevance.

(** ** sources/rss.py *)
Module Rss.
Local Open Scope list_scope.

(** [hay.startswith(needle)] *)
Fixpoint startswith (needle hay : list ascii) : bool :=
  match needle, hay with
  | [], _ => true
  | c :: needle', d :: hay' => bool_decide (c = d) && startswith needle' hay'
  | _ :: _, [] => false
  end.

(** [needle in hay], on strings *)
Fixpoint contains (needle hay : list ascii) : bool :=
  startswith needle hay
  || match hay with
     | [] => false
     | _ :: hay' => contains needle hay'
     end.

(** [RSSSource._matches_keywords]; [MaarivScraper._matches_keywords] is the
    same on the title and the snippet of its article. *)
Definition _matches_keywords (title snippet : string) (keywords : list string)
  : bool :=
  let text := lower (title ++ " " ++ snippet)%string in
  existsb (λ kw, contains (lower kw) text) keywords.

End Rss.

(** ** config.py *)
Module Config.

Inductive SourceType := RSS | SCRAPER.

Record SourceConfig := {
  name : string;
  type : SourceType;
  url : option string;   (* required for RSS sources *)
  enabled : bool;
}.

(** [max_articles] is read by the pipeline and expected by the tests of the
    configuration (default 30); the other fields are those the pipeline
    reads. *)
Record Config := {
  days : Z;
  keywords : list string;
  sources : list SourceConfig;
  similarity_threshold : Q;     (* [dedup.similarity_threshold], default 0.7 *)
  store_path : string;          (* [store.path] *)
  max_articles : nat;
}.

End Config.

(** ** pipeline.py *)
Module Pipeline.
Import Models Config.
Local Open Scope list_scope.

Inductive Source :=
| RSSSource (source_name feed_url : string)
| MakoSource
| MaarivSource.

(** What a run meets outside the program and is the same from one run to
    the next. *)
Record World := {
  ANTHROPIC_API_KEY : option string;              (* [os.environ] *)
  (** [source.fetch(days, keywords)]; [None] when it raises *)
  fetch : Source -> Z -> list string -> option (list RawArticle);
  messages_create : string -> string -> outcome string;
  json_loads : string -> option json;
}.

(** What differs from run to run: the clock read by [mark_seen] and by
    [save], and what the write meets. *)
Record Moment := {
  now_mark_seen : string;
  now_save : string;
  io : save_io;
}.

Definition create_sources (config : Config) : list Source :=
  fold_left
    (λ sources source_cfg,
       if negb (enabled source_cfg) then sources
       else match type source_cfg with
            | RSS =>
                match url source_cfg with
                | Some u => if bool_decide (u = "") then sources
                            else sources ++ [RSSSource (name source_cfg) u]
                | None => sources
                end
            | SCRAPER =>
                if bool_decide (name source_cfg = "mako")
                then sources ++ [MakoSource]
                else if bool_decide (name source_cfg = "maariv")
                then sources ++ [MaarivSource]
                else sources
            end)
    (Config.sources config) [].

Definition fetch_all_sources (w : World) (sources : list Source) (days : Z)
    (keywords : list string) : list RawArticle :=
  fold_left
    (λ all_articles source,
       match fetch w source days keywords with
       | Some articles => all_articles ++ articles
       | None => all_articles
       end)
    sources [].

Definition filter_seen (articles : list RawArticle) (seen_store : Seen.SeenStore)
  : list RawArticle :=
  filter (λ article, Seen.is_seen seen_store (Models.url article) = false) articles.

Definition classify_articles (w : World) (articles : list RawArticle)
  : outcome (list ClassifiedArticle) :=
  classified ← Relevance.classify_batch (json_loads w) (messages_create w) articles;
  Return (filter (λ c, relevant (classification c) = true) classified).


(** [mark_seen]: the store after the call, and the disk after its [save]. *)
Definition mark_seen (t : Moment) (items : list UnifiedItem)
    (seen_store : Seen.SeenStore) (d : disk) : Seen.SeenStore * outcome disk :=
  let urls := item ← items; ref_url <$> Models.sources item in
  let seen_store := Seen.mark_seen (now_mark_seen t) seen_store urls in
  (seen_store, Seen.save (io t) (now_save t) seen_store d).




End Pipeline.

(** ** Data of the examples *)
Module Examples.
Import Models.

(** [datetime.fromisoformat(ts).timestamp()] on the timestamps the examples
    use; every other string is rejected. *)
Definition iso_clock : list (string * Z) :=
  [("2026-09-24T12:00:00+00:00", 1790251200 * Seen.second);
   ("2026-10-24T12:00:00+00:00", 1792843200 * Seen.second);
   ("2026-11-02T12:00:00+00:00", 1793620800 * Seen.second)]%Z.

Definition fromisoformat (ts : string) : option Z :=
  (list_to_map iso_clock : gmap string Z) !! ts.

(** 2026-11-03T12:00:00+00:00 *)
Definition now : Z := 1793707200 * Seen.second.

Definition store_of (seen : gmap string string) : Seen.SeenStore :=
  {| Seen._path := "data/seen.json"; Seen._seen := seen |}.

(** 2026-02-14 and 2026-02-15, at midnight UTC. *)
Definition feb_14 : Z := 1771027200 * Seen.second.
Definition feb_15 : Z := 1771113600 * Seen.second.

(** A relevant article, classified brothel/closure. *)
Definition classified (url title snippet : string) (date : Z) (source : string)
  : ClassifiedArticle :=
  {| article := {| url := url; title := title; snippet := snippet;
                   date := date; source_name := source |};
     classification := {| relevant := true; category := BROTHEL;
                          sub_category := Some CLOSURE;
                          confidence := "high" |} |}.

(** Snippets of 5, 40 and 40 characters; of the two long ones the later is
    added first. *)
Definition short_item : ClassifiedArticle :=
  classified "https://a.example/1" "Police Raid Brothel" "Short" feb_15 "a".
Definition long_feb_15 : ClassifiedArticle :=
  classified "https://b.example/1" "Police Raid Brothel"
    "Police closed a brothel in Tel Aviv, b.." feb_15 "b".
Definition long_feb_14 : ClassifiedArticle :=
  classified "https://c.example/1" "Police Raid Brothel"
    "Police closed a brothel in Tel Aviv, c.." feb_14 "c".


(** [s] between double quotes. *)
Definition quoted (s : string) : string :=
  String "034" (s ++ String "034" "").

(** The response text
    [{"relevant": true, "category": <category>, "sub_category": <sub>,
      "confidence": "high"}]. *)
Definition response_text (category sub : string) : string :=
  "{" ++ quoted "relevant" ++ ": true, "
      ++ quoted "category" ++ ": " ++ quoted category ++ ", "
      ++ quoted "sub_category" ++ ": " ++ quoted sub ++ ", "
      ++ quoted "confidence" ++ ": " ++ quoted "high" ++ "}".

Definition response_data (category sub : string) : json :=
  JObj [("relevant", JBool true); ("category", JStr category);
        ("sub_category", JStr sub); ("confidence", JStr "high")].

(** [json.loads] on the response texts the examples use (a brothel tagged
    rescue, a brothel tagged closure, a brothel with an unknown tag);
    every other text is rejected. *)
Definition json_loads (text : string) : option json :=
  (list_to_map
     [(response_text "brothel" "rescue", response_data "brothel" "rescue");
      (response_text "brothel" "closure", response_data "brothel" "closure");
      (response_text "brothel" "unknown", response_data "brothel" "unknown")]
   : gmap string json) !! text.

(** The response [{"relevant": false, "category": "not_relevant",
    "confidence": "high"}] is the one text more that [world_loads] parses. *)
Definition not_relevant_text : string :=
  "{" ++ quoted "relevant" ++ ": false, "
      ++ quoted "category" ++ ": " ++ quoted "not_relevant" ++ ", "
      ++ quoted "confidence" ++ ": " ++ quoted "high" ++ "}".

Definition world_loads (text : string) : option json :=
  if bool_decide (text = not_relevant_text)
  then Some (JObj [("relevant", JBool false); ("category", JStr "not_relevant");
                   ("confidence", JStr "high")])
  else json_loads text.

(** The first of them, in a markdown code block. *)
Definition fenced_response : string :=
  "```json" ++ newline ++ response_text "brothel" "rescue" ++ newline ++ "```".

(** Two feeds and a scraper that fails. The first feed has two reports of
    one raid and a weather report, the second a third report of the raid. *)
Definition raw (url title snippet source : string) : RawArticle :=
  {| url := url; title := title; snippet := snippet; date := feb_14;
     source_name := source |}.

Definition ynet_feed : list RawArticle :=
  [raw "https://ynet.example/1" "Police Raid Brothel in Tel Aviv"
       "Police raided and closed a brothel in south Tel Aviv." "ynet";
   raw "https://ynet.example/2" "Rain Expected Over the Weekend"
       "Showers in the north." "ynet"].

Definition walla_feed : list RawArticle :=
  [raw "https://walla.example/1" "Police Raid Brothel in Tel Aviv Area"
       "A brothel was closed." "walla"].

Definition world : Pipeline.World :=
  {| Pipeline.ANTHROPIC_API_KEY := Some "sk-ant-test";
     Pipeline.fetch := λ source _ _,
       match source with
       | Pipeline.RSSSource name _ =>
           if bool_decide (name = "ynet") then Some ynet_feed
           else if bool_decide (name = "walla") then Some walla_feed
           else Some []
       | _ => None
       end;
     Pipeline.messages_create := λ title _,
       if bool_decide (title = "Rain Expected Over the Weekend")
       then Return not_relevant_text
       else Return (response_text "brothel" "closure");
     Pipeline.json_loads := world_loads |}.

Definition config : Config.Config :=
  {| Config.days := 14;
     Config.keywords := ["brothel"];
     Config.sources :=
       [{| Config.name := "ynet"; Config.type := Config.RSS;
           Config.url := Some "https://ynet.example/feed.xml";
           Config.enabled := true |};
        {| Config.name := "walla"; Config.type := Config.RSS;
           Config.url := Some "https://walla.example/feed.xml";
           Config.enabled := true |};
        {| Config.name := "mako"; Config.type := Config.SCRAPER;
           Config.url := None; Config.enabled := true |}];
     Config.similarity_threshold := 7 # 10;
     Config.store_path := "data/seen.json";
     Config.max_articles := 30 |}.





(** The first report of the raid, the weather report, and what the service
    of [world] says of them. *)
Definition ynet_raid : RawArticle :=
  raw "https://ynet.example/1" "Police Raid Brothel in Tel Aviv"
    "Police raided and closed a brothel in south Tel Aviv." "ynet".

Definition ynet_rain : RawArticle :=
  raw "https://ynet.example/2" "Rain Expected Over the Weekend"
    "Showers in the north." "ynet".

Definition brothel_closure : ClassificationResult :=
  {| relevant := true; category := BROTHEL; sub_category := Some CLOSURE;
     confidence := "high" |}.

Definition not_relevant_high : ClassificationResult :=
  {| relevant := false; category := NOT_RELEVANT; sub_category := None;
     confidence := "high" |}.

(** A service that answers every prompt with the text [[]], the
    [json.loads] that reads it, and a service that is down. *)
Definition list_reply (title snippet : string) : outcome string := Return "[]".

Definition list_loads (text : string) : option json :=
  if bool_decide (text = "[]") then Some (JArr []) else None.

Definition service_down (title snippet : string) : outcome string :=
  Raise APIError.


(** The world of the examples with the service down. *)
Definition world_down : Pipeline.World :=
  {| Pipeline.ANTHROPIC_API_KEY := Pipeline.ANTHROPIC_API_KEY world;
     Pipeline.fetch := Pipeline.fetch world;
     Pipeline.messages_create := service_down;
     Pipeline.json_loads := world_loads |}.

End Examples.

(** ** Notions the properties are stated with *)
Module Spec.
Import Models Similarity.

(** The step of the loop of [max]. *)
Definition pick (best y : ClassifiedArticle) : ClassifiedArticle :=
  if key_lt (key best) (key y) then y else best.

(** The order of the keys of [primary], with equality. *)
Definition key_le (x y : nat * Z) : Prop :=
  (x.1 < y.1)%nat ∨ (x.1 = y.1 ∧ x.2 ≤ y.2).

(** [article] is not similar enough to the primary of [g]; it is. *)
Definition unlike (self : Deduplicator) (article : ClassifiedArticle)
    (g : ArticleGroup) : Prop :=
  ∃ p, primary g = Return p ∧ _is_similar self article p = false.

Definition like (self : Deduplicator) (article : ClassifiedArticle)
    (g : ArticleGroup) : Prop :=
  ∃ p, primary g = Return p ∧ _is_similar self article p = true.

(** The rule of the specification for one incoming item: it is appended to
    the first group, in creation order, whose current primary is similar
    enough; otherwise it opens a new singleton group at the end. *)
Inductive placed (self : Deduplicator) (article : ClassifiedArticle)
  : list ArticleGroup → list ArticleGroup → Prop :=
| placed_joins pre g post :
    Forall (unlike self article) pre →
    like self article g →
    placed self article (pre ++ g :: post) (pre ++ add article g :: post)
| placed_opens groups :
    Forall (unlike self article) groups →
    placed self article groups (groups ++ [ArticleGroup__init__ article]).

Definition nonempty (g : ArticleGroup) : Prop := articles g ≠ [].

(** The members of [g] are the inputs at the positions [positions], which
    increase: the members keep the order of the input, the first member is
    the earliest of them. *)
Definition drawn_from (input : list ClassifiedArticle) (g : ArticleGroup)
    (positions : list nat) : Prop :=
  Forall2 (λ a i, input !! i = Some a) (articles g) positions
  ∧ StronglySorted lt positions.

(** Every position of the input is in exactly one group. *)
Definition partitions (input : list ClassifiedArticle)
    (groups : list ArticleGroup) : Prop :=
  ∃ positions : list (list nat),
    Forall2 (drawn_from input) groups positions
    ∧ concat positions ≡ₚ seq 0 (length input).








(** The source reference of a member. *)
Definition reference (a : ClassifiedArticle) : SourceReference :=
  {| ref_source_name := source_name (article a); ref_url := url (article a) |}.

(** [item] is what [_group_to_unified] makes of [g]. *)
Definition unifies (g : ArticleGroup) (item : UnifiedItem) : Prop :=
  ∃ p, primary g = Return p
       ∧ p ∈ articles g
       ∧ headline item = title (article p)
       ∧ summary item = snippet (article p)
       ∧ item_date item = date (article p)
       ∧ item_category item = category (classification p)
       ∧ item_sub_category item = sub_category (classification p)
       ∧ sources item = reference <$> articles g.

(** The source a configuration entry stands for, if any: an entry that is
    disabled, an RSS entry without a URL and a scraper that is neither
    mako nor maariv stand for none. *)
Definition source_of (source_cfg : Config.SourceConfig) : option Pipeline.Source :=
  if Config.enabled source_cfg then
    match Config.type source_cfg with
    | Config.RSS =>
        match Config.url source_cfg with
        | Some u => if bool_decide (u = "") then None
                    else Some (Pipeline.RSSSource (Config.name source_cfg) u)
        | None => None
        end
    | Config.SCRAPER =>
        if bool_decide (Config.name source_cfg = "mako") then Some Pipeline.MakoSource
        else if bool_decide (Config.name source_cfg = "maariv") then Some Pipeline.MaarivSource
        else None
    end
  else None.

(** *** Notions for the strings *)

(** [body] in a markdown code block opened with [tag]. *)
Definition fenced (tag body : string) : string :=
  ("```" ++ tag ++ newline ++ body ++ newline ++ "```")%string.

(** [s.lower()], as a [str]. *)
Definition lowered (s : string) : string := string_of_list_ascii (lower s).

(** All the characters of [s] are white space. *)
Definition blank (s : string) : Prop :=
  Forall (λ c, isspace c = true) (list_ascii_of_string s).

(** [s] has no line feed. *)
Definition one_line (s : string) : Prop :=
  "010"%char ∉ list_ascii_of_string s.

(** *** Notions for the matcher *)
Section MatcherNotions.
Import Difflib.
Local Open Scope nat_scope.

(** A block inside the window it was searched in. *)
Definition within (alo ahi blo bhi : nat) (m : Match) : Prop :=
  let '(i, j, k) := m in alo ≤ i ∧ i + k ≤ ahi ∧ blo ≤ j ∧ j + k ≤ bhi.

(** The entries of a row of [j2len]: lengths of matches that end in the
    window, no longer than [cap]. *)
Definition row_within (blo bhi cap : nat) (j2len : gmap nat nat) : Prop :=
  ∀ j k, j2len !! j = Some k → blo ≤ j < bhi ∧ 1 ≤ k ≤ cap ∧ k ≤ j + 1 - blo.


Definition sum_sizes (blocks : list Match) : nat := sum_list (size_of <$> blocks).

Definition region_ok (r : nat * nat * nat * nat) : Prop :=
  let '(alo, ahi, blo, bhi) := r in alo ≤ ahi ∧ blo ≤ bhi.

(** The room the windows of the work list leave, in [a] and in [b], and
    the number of steps they can still take. *)
Definition room_a (queue : list (nat * nat * nat * nat)) : nat :=
  sum_list ((λ '(alo, ahi, _, _), ahi - alo) <$> queue).
Definition room_b (queue : list (nat * nat * nat * nat)) : nat :=
  sum_list ((λ '(_, _, blo, bhi), bhi - blo) <$> queue).
Definition steps (queue : list (nat * nat * nat * nat)) : nat :=
  sum_list ((λ '(alo, ahi, _, _), 2 * (ahi - alo) + 1) <$> queue).


Variable a : list ascii.

(** The length of the run of elements that are not popular, up to and
    without position [x]: what the diagonal of [j2len] holds. *)
Fixpoint run (x : nat) : nat :=
  match x with
  | O => 0
  | S x' =>
      match a !! x' with
      | Some elt => if popular a elt then 0 else S (run x')
      | None => 0
      end
  end.


(** The state before row [r]: the best block lies on the diagonal and is
    as long as every run met so far; the entries of the previous row are
    bounded by the runs, and exact on the diagonal. *)
Definition before_row (r : nat) (st : gmap nat nat * Match) : Prop :=
  let '(prev, (besti, bestj, bestsize)) := st in
  besti = bestj
  ∧ (∀ x, x < r → run (S x) ≤ bestsize)
  ∧ (∀ j k, prev !! j = Some k → k ≤ run (S j) ∧ k ≤ run r)
  ∧ j2lenget prev r = run r.

End MatcherNotions.

End Spec.

(** * Properties *)

Lemma filter_ext_in {A} (P1 P2 : A → Prop)
    `{!∀ x, Decision (P1 x), !∀ x, Decision (P2 x)} (l : list A) :
  (∀ x, x ∈ l → P1 x ↔ P2 x) → filter P1 l = filter P2 l.
Proof.
  induction l as [|a l IH]; intros Hiff; [done|].
  rewrite !filter_cons, IH by (intros x Hx; apply Hiff; by right).
  apply decide_ext, Hiff. by left.
Qed.

(** ** The seen ledger *)
Section SeenFacts.
Import Seen.

Lemma is_seen_true self url : is_seen self url = true ↔ url ∈ dom (_seen self).
Proof. unfold is_seen. apply bool_decide_eq_true. Qed.

Lemma is_seen_false self url : is_seen self url = false ↔ url ∉ dom (_seen self).
Proof. unfold is_seen. apply bool_decide_eq_false. Qed.

Lemma mark_seen_path now self urls : _path (mark_seen now self urls) = _path self.
Proof.
  unfold mark_seen. revert self.
  induction urls as [|u urls IH]; intros self; [done|].
  simpl. rewrite IH. by destruct (is_seen self u).
Qed.

Lemma mark_seen_dom now self urls :
  dom (_seen (mark_seen now self urls)) = dom (_seen self) ∪ list_to_set urls.
Proof.
  unfold mark_seen. revert self.
  induction urls as [|u urls IH]; intros self; simpl.
  - set_solver.
  - rewrite IH. destruct (is_seen self u) eqn:Hu; simpl.
    + apply is_seen_true in Hu. set_solver.
    + rewrite dom_insert_L. set_solver.
Qed.



Lemma filter_unseen_elem self urls url :
  url ∈ filter_unseen self urls ↔ url ∈ urls ∧ url ∉ dom (_seen self).
Proof.
  unfold filter_unseen. rewrite list_elem_of_filter, is_seen_false. tauto.
Qed.

End SeenFacts.

(** C6. [filter_unseen] keeps, in their input order, the inputs that are
    not seen: when [S] is the set of locators marked seen and the input
    enumerates [S ∪ T], the result is the input restricted to [T ∖ S], a
    subsequence of the input whose elements are exactly [T ∖ S]. *)
Theorem filter_unseen_stable_difference
    (self : Seen.SeenStore) (S T : gset string) (urls : list string) :
  dom (Seen._seen self) = S →
  list_to_set urls = S ∪ T →
  Seen.filter_unseen self urls = filter (λ url, url ∈ T ∖ S) urls
  ∧ sublist (Seen.filter_unseen self urls) urls
  ∧ list_to_set (Seen.filter_unseen self urls) = T ∖ S.
Proof.
  intros HS Hurls.
  assert (Hin : ∀ url, url ∈ urls ↔ url ∈ S ∪ T).
  { intros url. rewrite <- Hurls. by rewrite elem_of_list_to_set. }
  split; [|split].
  - unfold Seen.filter_unseen. apply filter_ext_in. intros url Hu.
    rewrite is_seen_false, HS. apply Hin in Hu. set_solver.
  - apply sublist_filter.
  - apply set_eq. intros url.
    rewrite elem_of_list_to_set, filter_unseen_elem, Hin, HS. set_solver.
Qed.

(** The store that has marked [a] and [b] seen, asked about [a; c; b; d; c]. *)
Lemma filter_unseen_stable_difference_witness :
  let self := Seen.mark_seen "2026-11-03T12:00:00+00:00"
                (Examples.store_of ∅) ["a"; "b"] in
  let urls := ["a"; "c"; "b"; "d"; "c"] in
  (dom (Seen._seen self) = {["a"; "b"]}
   ∧ list_to_set urls = ({["a"; "b"]} ∪ {["c"; "d"]} : gset string))
  ∧ Seen.filter_unseen self urls = ["c"; "d"; "c"].
Proof.
  split; [split; by vm_compute|].
  pose proof (filter_unseen_stable_difference
    (Seen.mark_seen "2026-11-03T12:00:00+00:00" (Examples.store_of ∅) ["a"; "b"])
    {["a"; "b"]} {["c"; "d"]} ["a"; "c"; "b"; "d"; "c"]
    ltac:(by vm_compute) ltac:(by vm_compute)) as [-> _].
  by vm_compute.
Defined.

(** *** Pruning *)




(** The scenario of the specification: [prune_older_than(30)] drops the
    entry of 40 days ago and the one whose timestamp does not parse, keeps
    the entry of 10 days ago, and returns 2. *)
Example prune_30_days :
  let self := Examples.store_of
    {[ "https://example.com/old" := "2026-09-24T12:00:00+00:00";
       "https://example.com/new" := "2026-10-24T12:00:00+00:00";
       "https://example.com/odd" := "yesterday" ]} in
  Seen.prune_older_than Examples.fromisoformat Examples.now self 30
  = (Examples.store_of
       {[ "https://example.com/new" := "2026-10-24T12:00:00+00:00" ]}, 2).
Proof. by vm_compute. Qed.

(** *** Loading *)

(** A missing file, a file that cannot be opened and a file that is not
    JSON all give the empty store. *)
Lemma load_tolerates_missing_and_unparsable (path : string) (d : disk) :
  d !! path = None ∨ d !! path = Some Unreadable ∨ d !! path = Some NotJson →
  ∃ self, Seen.__init__ path d = Return self
          ∧ Seen._seen self = ∅ ∧ Seen.count self = 0%nat.
Proof.
  intros Hd. exists {| Seen._path := path; Seen._seen := ∅ |}.
  unfold Seen.__init__, Seen._load.
  destruct Hd as [-> | [-> | ->]]; by vm_compute.
Qed.

(** C8 fails on a ledger file that is well-formed JSON but no object (here
    the text [[]]), and on one whose bytes are no text: [_load] catches
    [JSONDecodeError] and [OSError] only, the [AttributeError] of
    [data.get] and the [UnicodeDecodeError] of the read reach the caller
    of [SeenStore(path)]. *)
Theorem load_raises_on_malformed_ledger :
  Seen.__init__ "data/seen.json" {[ "data/seen.json" := Json (JArr []) ]}
    = Raise AttributeError
  ∧ Seen.__init__ "data/seen.json" {[ "data/seen.json" := Json JNull ]}
    = Raise AttributeError
  ∧ Seen.__init__ "data/seen.json"
      {[ "data/seen.json" := Json (JObj [("urls", JNull)]) ]}
    = Raise TypeError
  ∧ Seen.__init__ "data/seen.json" {[ "data/seen.json" := Undecodable ]}
    = Raise UnicodeDecodeError.
Proof. repeat split; by vm_compute. Qed.

(** ** The primary of a group *)
Section PrimaryFacts.
Import Models Similarity Spec.

Lemma key_lt_spec x y :
  key_lt x y = true ↔ (x.1 < y.1)%nat ∨ (x.1 = y.1 ∧ x.2 < y.2).
Proof.
  unfold key_lt.
  rewrite orb_true_iff, andb_true_iff, Nat.ltb_lt, Nat.eqb_eq, Z.ltb_lt. tauto.
Qed.

Lemma key_le_refl x : key_le x x.
Proof. unfold key_le. lia. Qed.

Lemma key_le_trans x y z : key_le x y → key_le y z → key_le x z.
Proof. unfold key_le. lia. Qed.

Lemma pick_upper best y :
  key_le (key best) (key (pick best y)) ∧ key_le (key y) (key (pick best y)).
Proof.
  unfold pick. destruct (key_lt (key best) (key y)) eqn:Hlt.
  - apply key_lt_spec in Hlt. unfold key_le. lia.
  - assert (¬ (((key best).1 < (key y).1)%nat ∨
               ((key best).1 = (key y).1 ∧ (key best).2 < (key y).2))) as Hn.
    { rewrite <- key_lt_spec, Hlt. done. }
    unfold key_le. lia.
Qed.

Lemma fold_pick_elem xs x : fold_left pick xs x ∈ x :: xs.
Proof.
  revert x. induction xs as [|y xs IH]; intros x; simpl; [by left|].
  specialize (IH (pick x y)). apply elem_of_cons in IH as [->|IH].
  - unfold pick. destruct (key_lt _ _); [right; by left | by left].
  - by do 2 right.
Qed.

Lemma fold_pick_upper xs x a :
  a ∈ x :: xs → key_le (key a) (key (fold_left pick xs x)).
Proof.
  revert x a. induction xs as [|y xs IH]; intros x a Ha; simpl.
  - apply list_elem_of_singleton in Ha as ->. apply key_le_refl.
  - destruct (pick_upper x y) as [Hx Hy].
    apply elem_of_cons in Ha as [->|Ha].
    + eapply key_le_trans; [exact Hx|]. apply IH. by left.
    + apply elem_of_cons in Ha as [->|Ha].
      * eapply key_le_trans; [exact Hy|]. apply IH. by left.
      * apply IH. by right.
Qed.

Lemma primary_return g :
  articles g ≠ [] →
  ∃ p, primary g = Return p ∧ p ∈ articles g
       ∧ ∀ a, a ∈ articles g → key_le (key a) (key p).
Proof.
  unfold primary, max_by_key. destruct (articles g) as [|x xs]; [done|].
  intros _. exists (fold_left pick xs x). split; [done|].
  split; [apply fold_pick_elem|]. intros a. apply fold_pick_upper.
Qed.

End PrimaryFacts.



(** ** Grouping *)
Section GroupFacts.
Import Models Similarity Spec.
Variable self : Deduplicator.

Lemma for_each_app {S A} (body : S → A → outcome S) xs ys st :
  for_each body (xs ++ ys) st = (st' ← for_each body xs st; for_each body ys st').
Proof.
  revert st. induction xs as [|x xs IH]; intros st; simpl; [done|].
  destruct (body st x); simpl; [apply IH|done..].
Qed.

Lemma group_loop l : group self l = for_each (group_step self) l [].
Proof. by destruct l. Qed.

Lemma primary_of_nonempty g : nonempty g → ∃ p, primary g = Return p.
Proof. intros Hg. destruct (primary_return g Hg) as (p & Hp & _). eauto. Qed.

(** [_find_matching_group] returns the index of the first group whose
    primary is similar enough, [None] when there is none. *)
Lemma find_matching_group_first article groups :
  Forall nonempty groups →
  (∃ pre g post,
      groups = pre ++ g :: post
      ∧ Forall (unlike self article) pre ∧ like self article g
      ∧ _find_matching_group self article groups = Return (Some (length pre)))
  ∨ (Forall (unlike self article) groups
     ∧ _find_matching_group self article groups = Return None).
Proof.
  induction 1 as [|g groups Hg Hgroups IH]; simpl.
  - right. by split.
  - destruct (primary_of_nonempty g Hg) as [p Hp]. rewrite Hp. simpl.
    destruct (_is_similar self article p) eqn:Hsim.
    + left. exists [], g, groups. repeat split; [constructor|].
      exists p. by split.
    + assert (unlike self article g) as Hun by (exists p; by split).
      destruct IH as [(pre & g' & post & -> & Hpre & Hlike & ->) | [Hall ->]].
      * left. exists (g :: pre), g', post.
        repeat split; [by constructor|done].
      * right. split; [by constructor|done].
Qed.

Lemma group_step_placed article groups :
  Forall nonempty groups →
  ∃ groups', group_step self groups article = Return groups'
             ∧ placed self article groups groups'.
Proof.
  intros Hne. unfold group_step.
  destruct (find_matching_group_first article groups Hne)
    as [(pre & g & post & -> & Hpre & Hlike & ->) | [Hall ->]]; simpl.
  - exists (pre ++ add article g :: post). split; [|by constructor].
    f_equal. rewrite <- (Nat.add_0_r (length pre)). by rewrite alter_app_r.
  - eexists. split; [done|by constructor].
Qed.

Lemma placed_nonempty article groups groups' :
  placed self article groups groups' →
  Forall nonempty groups → Forall nonempty groups'.
Proof.
  destruct 1 as [pre g post _ _ | groups _]; rewrite !Forall_app.
  - intros [Hpre Hpost]. split; [done|].
    apply Forall_cons in Hpost as [_ Hpost]. apply Forall_cons. split; [|done].
    unfold nonempty, add. simpl. by destruct (articles g).
  - intros Hall. split; [done|]. by repeat constructor.
Qed.

(** The loop never raises, and its groups are never empty. *)
Lemma group_returns l :
  ∃ groups, group self l = Return groups ∧ Forall nonempty groups.
Proof.
  rewrite group_loop. induction l as [|a l IH] using rev_ind.
  - exists []. by split.
  - destruct IH as (groups & Hrun & Hne).
    destruct (group_step_placed a groups Hne) as (groups' & Hstep & Hplaced).
    exists groups'. rewrite for_each_app, Hrun. simpl. rewrite Hstep.
    split; [done|]. by eapply placed_nonempty.
Qed.

(** One more item at the end of the input is one more step of the rule. *)
Lemma group_snoc l article groups :
  group self l = Return groups →
  ∃ groups', group self (l ++ [article]) = Return groups'
             ∧ placed self article groups groups'.
Proof.
  intros Hrun. destruct (group_returns l) as (groups0 & Hrun0 & Hne).
  rewrite Hrun in Hrun0. injection Hrun0 as <-.
  destruct (group_step_placed article groups Hne) as (groups' & Hstep & Hplaced).
  exists groups'. split; [|done].
  rewrite group_loop in *. rewrite for_each_app, Hrun. simpl. by rewrite Hstep.
Qed.

End GroupFacts.

(** C5. [group] is one pass from left to right: the groups of an input
    with one more item at its end are the groups of the input, with the
    item appended to the first group in creation order whose current
    primary is similar enough, or else with a new singleton group at the
    end. The empty input gives no group, without error, and one item gives
    one singleton group. *)
Theorem group_single_pass (self : Similarity.Deduplicator) :
  Similarity.group self [] = Return []
  ∧ (∀ article,
       Similarity.group self [article]
       = Return [Similarity.ArticleGroup__init__ article])
  ∧ (∀ input article,
       ∃ groups groups',
         Similarity.group self input = Return groups
         ∧ Similarity.group self (input ++ [article]) = Return groups'
         ∧ Spec.placed self article groups groups').
Proof.
  split; [done|]. split; [done|].
  intros input article.
  destruct (group_returns self input) as (groups & Hrun & _).
  destruct (group_snoc self input article groups Hrun) as (groups' & Hrun' & Hp).
  by exists groups, groups'.
Qed.

(** *** The groups partition the input *)
Section PartitionFacts.
Import Models Similarity Spec.
Variable self : Deduplicator.

Lemma drawn_from_snoc input article g positions :
  drawn_from input g positions → drawn_from (input ++ [article]) g positions.
Proof.
  intros [Hat Hsorted]. split; [|done].
  eapply Forall2_impl; [exact Hat|]. intros a i. apply lookup_app_l_Some.
Qed.

Lemma drawn_from_add input article g positions :
  drawn_from input g positions →
  drawn_from (input ++ [article]) (add article g) (positions ++ [length input]).
Proof.
  intros [Hat Hsorted]. split.
  - unfold add. simpl. apply Forall2_app.
    + eapply Forall2_impl; [exact Hat|]. intros a i. apply lookup_app_l_Some.
    + repeat constructor. by apply list_lookup_middle.
  - apply StronglySorted_app_2; [|done|repeat constructor].
    intros i n Hi ->%list_elem_of_singleton.
    apply list_elem_of_lookup in Hi as [k Hk].
    destruct (Forall2_lookup_r _ _ _ _ _ Hat Hk) as (a & _ & Ha).
    by apply lookup_lt_Some in Ha.
Qed.

Lemma drawn_from_init input article :
  drawn_from (input ++ [article]) (ArticleGroup__init__ article) [length input].
Proof.
  split; [|repeat constructor]. simpl. repeat constructor.
  by apply list_lookup_middle.
Qed.

Lemma partitions_placed input article groups groups' :
  placed self article groups groups' →
  partitions input groups → partitions (input ++ [article]) groups'.
Proof.
  intros Hplaced (positions & Hdrawn & Hperm).
  assert (seq 0 (length (input ++ [article]))
          = seq 0 (length input) ++ [length input]) as Hseq.
  { by rewrite length_app, Nat.add_1_r, seq_S. }
  unfold partitions. rewrite Hseq.
  destruct Hplaced as [pre g post _ _ | groups _].
  - apply Forall2_app_inv_l in Hdrawn as (ppre & ppost' & Hpre & Hpost & ->).
    apply Forall2_cons_inv_l in Hpost as (pg & ppost & Hg & Hpost & ->).
    exists (ppre ++ (pg ++ [length input]) :: ppost). split.
    + apply Forall2_app.
      * eapply Forall2_impl; [exact Hpre|]. intros ??. apply drawn_from_snoc.
      * constructor; [by apply drawn_from_add|].
        eapply Forall2_impl; [exact Hpost|]. intros ??. apply drawn_from_snoc.
    + rewrite <- Hperm. rewrite !concat_app. simpl.
      rewrite <- !(assoc_L (++)).
      apply Permutation_app_head, Permutation_app_head.
      apply Permutation_app_comm.
  - exists (positions ++ [[length input]]). split.
    + apply Forall2_app.
      * eapply Forall2_impl; [exact Hdrawn|]. intros ??. apply drawn_from_snoc.
      * repeat constructor; apply drawn_from_init || by apply list_lookup_middle.
    + rewrite concat_app. simpl. by rewrite Hperm.
Qed.

Lemma members_placed input article groups groups' :
  placed self article groups groups' →
  concat (articles <$> groups) ≡ₚ input →
  concat (articles <$> groups') ≡ₚ input ++ [article].
Proof.
  intros Hplaced Hperm. rewrite <- Hperm.
  destruct Hplaced as [pre g post _ _ | groups _].
  - rewrite !fmap_app, !fmap_cons, !concat_app. simpl.
    rewrite <- !(assoc_L (++)).
    apply Permutation_app_head, Permutation_app_head.
    apply Permutation_app_comm.
  - rewrite fmap_app, concat_app. simpl. done.
Qed.

Lemma sublists_placed input article groups groups' :
  placed self article groups groups' →
  Forall (λ g, sublist (articles g) input) groups →
  Forall (λ g, sublist (articles g) (input ++ [article])) groups'.
Proof.
  intros Hplaced Hsub.
  assert (Forall (λ g, sublist (articles g) (input ++ [article])) groups) as Hw.
  { eapply Forall_impl; [exact Hsub|]. intros g. apply sublist_inserts_r. }
  destruct Hplaced as [pre g post _ _ | groups _].
  - apply Forall_app in Hw as [Hpre Hpost].
    apply Forall_cons in Hpost as [_ Hpost].
    apply Forall_app in Hsub as [_ Hg']. apply Forall_cons in Hg' as [Hg _].
    apply Forall_app. split; [done|]. apply Forall_cons. split; [|done].
    simpl. by apply sublist_app.
  - apply Forall_app. split; [done|]. repeat constructor.
    simpl. by apply sublist_inserts_l.
Qed.

Lemma group_partitions l :
  ∃ groups, group self l = Return groups
            ∧ partitions l groups
            ∧ Forall nonempty groups
            ∧ concat (articles <$> groups) ≡ₚ l
            ∧ Forall (λ g, sublist (articles g) l) groups.
Proof.
  induction l as [|a l IH] using rev_ind.
  - exists []. repeat split; try done. exists []. by split.
  - destruct IH as (groups & Hrun & Hpart & Hne & Hperm & Hsub).
    destruct (group_snoc self l a groups Hrun) as (groups' & Hrun' & Hplaced).
    exists groups'. split; [done|].
    split; [by eapply partitions_placed|].
    split; [by eapply placed_nonempty|].
    split; [by eapply members_placed|by eapply sublists_placed].
Qed.

End PartitionFacts.

(** C10. [group] returns, and its groups partition the input: every
    position of the input is in exactly one group, each group lists its
    members by increasing position (in the order of the input, the member
    that opened the group first), no group is empty, the sizes of the groups
    add up to the length of the input, and the members of all groups are
    the input items, each as often as it occurs. *)
Theorem group_partitions_input
    (self : Similarity.Deduplicator) (input : list Models.ClassifiedArticle) :
  ∃ groups,
    Similarity.group self input = Return groups
    ∧ Spec.partitions input groups
    ∧ Forall (λ g, Similarity.articles g ≠ []) groups
    ∧ sum_list ((λ g, length (Similarity.articles g)) <$> groups)
      = length input
    ∧ concat (Similarity.articles <$> groups) ≡ₚ input
    ∧ Forall (λ g, sublist (Similarity.articles g) input) groups.
Proof.
  destruct (group_partitions self input)
    as (groups & Hrun & Hpart & Hne & Hperm & Hsub).
  exists groups. do 3 (split; [done|]). split; [|by split].
  rewrite <- (Permutation_length Hperm). clear.
  induction groups as [|g groups IH]; simpl; [done|].
  rewrite length_app. f_equal. exact IH.
Qed.

(** ** Parsing the classifier's response *)
Section ParseFacts.
Import Models Relevance.

Lemma SubCategory_of_value v sc :
  SubCategory_of v = Some sc ↔ v = JStr (SubCategory_value sc).
Proof.
  split.
  - destruct v as [| | |s| |]; try discriminate. unfold SubCategory_of.
    intros Hfind. apply find_some in Hfind as [_ Hs].
    apply bool_decide_eq_true in Hs. by subst.
  - intros ->. by destruct sc.
Qed.

Lemma SubCategory_value_truthy sc : truthy (JStr (SubCategory_value sc)) = true.
Proof. by destruct sc. Qed.

Lemma parse_data_object members :
  parse_data (JObj members)
  = Return
      {| relevant := truthy (default (JBool false) (to_dict members !! "relevant"));
         category :=
           default NOT_RELEVANT
             (Category_of
                (default (JStr "not_relevant") (to_dict members !! "category")));
         sub_category :=
           (let tag := default JNull (to_dict members !! "sub_category") in
            if truthy tag then SubCategory_of tag else None);
         confidence :=
           match as_str (default (JStr "medium") (to_dict members !! "confidence")) with
           | Some c => if bool_decide (c ∈ ["high"; "medium"; "low"]) then c
                       else "medium"
           | None => "medium"
           end |}.
Proof. reflexivity. Qed.

End ParseFacts.

(** C2, as the code has it. A response that is a JSON object never makes
    the parse fail, and the result carries a sub-category exactly when the
    tag of the response is the value of one of the eight sub-categories,
    whatever the category: a tag outside the enumeration is ignored, a
    tag of another category is kept. *)
Theorem parse_keeps_any_known_sub_category
    (json_loads : string → option json) (text : string)
    (members : list (string * json)) :
  json_loads (Relevance.unfenced text) = Some (JObj members) →
  ∃ r, Relevance._parse_response json_loads text = Return r
       ∧ Models.category r
         = default Models.NOT_RELEVANT
             (Relevance.Category_of
                (default (JStr "not_relevant") (to_dict members !! "category")))
       ∧ ∀ sc, Models.sub_category r = Some sc
               ↔ to_dict members !! "sub_category"
                 = Some (JStr (Models.SubCategory_value sc)).
Proof.
  intros Hloads. unfold Relevance._parse_response.
  rewrite Hloads, parse_data_object. eexists. split; [done|].
  split; [done|]. intros sc. simpl.
  destruct (to_dict members !! "sub_category") as [tag|]; simpl.
  - destruct (truthy tag) eqn:Htag.
    + rewrite SubCategory_of_value. split; congruence.
    + split; [done|]. intros [= ->].
      by rewrite SubCategory_value_truthy in Htag.
  - split; discriminate.
Qed.

(** The response of the specification's example, a brothel tagged rescue,
    here inside a code block: the parse returns, with the tag kept. *)
Lemma parse_keeps_any_known_sub_category_witness :
  Examples.json_loads (Relevance.unfenced Examples.fenced_response)
  = Some (Examples.response_data "brothel" "rescue")
  ∧ ∃ r, Relevance._parse_response Examples.json_loads Examples.fenced_response
         = Return r
         ∧ Models.category r = Models.BROTHEL
         ∧ Models.sub_category r = Some Models.RESCUE.
Proof.
  assert (Examples.json_loads (Relevance.unfenced Examples.fenced_response)
          = Some (Examples.response_data "brothel" "rescue")) as Hloads
    by (by vm_compute).
  split; [done|].
  destruct (parse_keeps_any_known_sub_category _ _ _ Hloads)
    as (r & Hr & Hcat & Hsub).
  exists r. split; [done|]. split; [by rewrite Hcat|]. by apply Hsub.
Defined.

(** C2, as the specification words it, fails on the response
    [{"relevant": true, "category": "brothel", "sub_category": "rescue",
      "confidence": "high"}]: rescue is not a sub-category the prompt
    lists under brothel, and the result carries it. *)
Lemma cross_category_sub_category_is_kept :
  (Models.RESCUE ∉ Relevance.prompt_sub_categories Models.BROTHEL)
  ∧ Relevance._parse_response Examples.json_loads
      (Examples.response_text "brothel" "rescue")
    = Return {| Models.relevant := true; Models.category := Models.BROTHEL;
                Models.sub_category := Some Models.RESCUE;
                Models.confidence := "high" |}.
Proof.
  split; [|by vm_compute].
  unfold Relevance.prompt_sub_categories. rewrite !elem_of_cons.
  intros [? | [? | []%elem_of_nil]]; discriminate.
Qed.

(** A tag outside the enumeration is ignored, as the tests expect. *)
Example parse_ignores_unknown_sub_category :
  Relevance._parse_response Examples.json_loads
    (Examples.response_text "brothel" "unknown")
  = Return {| Models.relevant := true; Models.category := Models.BROTHEL;
              Models.sub_category := None; Models.confidence := "high" |}.
Proof. by vm_compute. Qed.



Section PipelineFacts.
Import Models Config Pipeline Spec.




Lemma map_each_Return {A B} (f : A → outcome B) l ys :
  map_each f l = Return ys ↔ Forall2 (λ x y, f x = Return y) l ys.
Proof.
  revert ys. induction l as [|x l IH]; intros ys; simpl.
  - split; [intros [= <-]; constructor | by inversion 1].
  - split.
    + destruct (f x) as [y| |] eqn:Hx; simpl; try done.
      destruct (map_each f l) as [ys'| |]; simpl; try done.
      intros [= <-]. constructor; [done|]. by apply IH.
    + inversion 1 as [|? y ? ys' Hx Hl]; subst. rewrite Hx. simpl.
      apply IH in Hl. by rewrite Hl.
Qed.

Lemma to_dict_of_map (m : gmap string json) : to_dict (map_to_list m) = m.
Proof.
  unfold to_dict. rewrite <- (list_to_map_to_list m) at 2.
  apply list_to_map_proper.
  - rewrite reverse_Permutation. apply NoDup_fst_map_to_list.
  - apply reverse_Permutation.
Qed.

Lemma as_str_dict_of_str_dict (m : gmap string string) :
  as_str_dict (of_str_dict m) = Some m.
Proof.
  unfold as_str_dict, of_str_dict. rewrite to_dict_of_map.
  rewrite decide_True.
  - f_equal. apply map_eq. intros k. rewrite lookup_omap, lookup_fmap.
    by destruct (m !! k).
  - intros k v. rewrite lookup_fmap. destruct (m !! k); intros [= <-]. by eexists.
Qed.

(** What a successful [save] writes, the next [SeenStore(path)] loads. *)
Lemma load_after_save now self d d' :
  Seen.save WriteOk now self d = Return d' →
  Seen.create_seen_store (Seen._path self) d' = Return self.
Proof.
  intros [= <-]. unfold Seen.create_seen_store, Seen.__init__, Seen._load.
  rewrite lookup_insert_eq. simpl.
  assert (to_dict [("urls", of_str_dict (Seen._seen self)); ("updated_at", JStr now)]
            !! "urls" = Some (of_str_dict (Seen._seen self))) as ->.
  { unfold to_dict. simpl. by vm_compute. }
  simpl. pose proof (as_str_dict_of_str_dict (Seen._seen self)) as Hdict.
  unfold as_str_dict, of_str_dict in Hdict. rewrite Hdict. by destruct self.
Qed.










Lemma filter_none {A} (P : A → Prop) `{!∀ x, Decision (P x)} (l : list A) :
  Forall (λ x, ¬ P x) l → filter P l = [].
Proof.
  induction 1 as [|x l Hx _ IH]; [done|].
  by rewrite filter_cons, decide_False.
Qed.



End PipelineFacts.






(** ** The matcher *)
Section MatcherFacts.
Import Difflib Spec.
Local Open Scope nat_scope.
Variables a b : list ascii.

Lemma j2lenget_within blo bhi cap j2len j :
  row_within blo bhi cap j2len → blo ≤ j →
  j2lenget j2len j ≤ cap ∧ j2lenget j2len j ≤ j - blo.
Proof.
  intros Hrow Hj. destruct j as [|j]; simpl; [lia|].
  destruct (j2len !! j) as [k|] eqn:Hk; simpl; [|lia].
  destruct (Hrow j k Hk). lia.
Qed.

Lemma scan_row_within alo ahi blo bhi i j2len js newj2len best :
  alo ≤ i < ahi →
  row_within blo bhi (i - alo) j2len →
  row_within blo bhi (i + 1 - alo) newj2len →
  within alo ahi blo bhi best →
  row_within blo bhi (i + 1 - alo) (scan_row blo bhi i j2len js newj2len best).1
  ∧ within alo ahi blo bhi (scan_row blo bhi i j2len js newj2len best).2.
Proof.
  intros Hi Hprev. revert newj2len best.
  induction js as [|j js IH]; intros newj2len best Hnew Hbest; simpl; [done|].
  destruct (j <? blo) eqn:Hlo; [by apply IH|]. apply Nat.ltb_ge in Hlo.
  destruct (bhi <=? j) eqn:Hhi; [done|]. apply Nat.leb_gt in Hhi.
  destruct (j2lenget_within _ _ _ _ j Hprev Hlo) as [Hcap Hdiag].
  apply IH.
  - intros j' k'. destruct (decide (j' = j)) as [->|Hne].
    + rewrite lookup_insert_eq. intros [= <-]. lia.
    + rewrite lookup_insert_ne by done. apply Hnew.
  - destruct (size_of best <? _); [|done]. unfold within. lia.
Qed.

Lemma scan_rows_within alo ahi blo bhi n :
  alo + n ≤ ahi → blo ≤ bhi →
  let st := fold_left
      (λ st i, scan_row blo bhi i st.1 (from_option (b2j b) [] (a !! i)) ∅ st.2)
      (seq alo n) (∅, (alo, blo, 0)) in
  row_within blo bhi n st.1 ∧ within alo ahi blo bhi st.2.
Proof.
  intros Hn Hb. induction n as [|n IH].
  - simpl. split; [by intros ?? ?%lookup_empty_Some|]. lia.
  - rewrite seq_S, fold_left_app. cbn [fold_left fst snd].
    destruct IH as [Hrow Hbest]; [lia|].
    replace (S n) with (alo + n + 1 - alo) by lia.
    apply (scan_row_within alo ahi); [lia| |by intros ?? ?%lookup_empty_Some|done].
    by replace (alo + n - alo) with n by lia.
Qed.

Lemma extend_left_within alo ahi blo bhi besti bestj bestsize :
  within alo ahi blo bhi (besti, bestj, bestsize) →
  within alo ahi blo bhi (extend_left a b alo blo besti bestj bestsize).
Proof.
  revert bestj bestsize. induction besti as [|i IH]; intros bestj bestsize Hw;
    simpl; [done|].
  destruct bestj as [|j]; [done|].
  destruct (_ && _) eqn:Hcond; [|done].
  apply andb_prop in Hcond as [[Hi Hj]%andb_prop _].
  apply Nat.ltb_lt in Hi, Hj. apply IH. unfold within in *. lia.
Qed.

Lemma extend_right_within fuel alo ahi blo bhi besti bestj bestsize :
  within alo ahi blo bhi (besti, bestj, bestsize) →
  within alo ahi blo bhi (extend_right a b fuel ahi bhi besti bestj bestsize).
Proof.
  revert bestsize. induction fuel as [|fuel IH]; intros bestsize Hw; simpl;
    [done|].
  destruct (_ && _) eqn:Hcond; [|done].
  apply andb_prop in Hcond as [[Hi Hj]%andb_prop _].
  apply Nat.ltb_lt in Hi, Hj. apply IH. unfold within in *. lia.
Qed.

(** [find_longest_match] answers with a block of its window. *)
Lemma find_longest_match_within alo ahi blo bhi :
  alo ≤ ahi → blo ≤ bhi →
  within alo ahi blo bhi (find_longest_match a b alo ahi blo bhi).
Proof.
  intros Ha Hb. unfold find_longest_match, scan_rows.
  destruct (scan_rows_within alo ahi blo bhi (ahi - alo)) as [_ Hbest];
    [lia|done|].
  destruct (fold_left _ _ _).2 as [[i j] k].
  pose proof (extend_left_within _ _ _ _ _ _ _ Hbest) as Hleft.
  destruct (extend_left _ _ _ _ _ _ _) as [[i' j'] k'].
  by apply extend_right_within.
Qed.

Lemma sum_sizes_snoc blocks m : sum_sizes (blocks ++ [m]) = sum_sizes blocks + size_of m.
Proof. unfold sum_sizes. rewrite fmap_app, sum_list_with_app. simpl. lia. Qed.

(** With fuel for the steps left, the work list runs dry, and the blocks it
    adds fit in the room its windows had. *)
Lemma drain_within fuel queue acc :
  Forall region_ok queue → steps queue ≤ fuel →
  ∃ blocks, drain a b fuel queue acc = Some blocks
            ∧ sum_sizes blocks ≤ sum_sizes acc + room_a queue
            ∧ sum_sizes blocks ≤ sum_sizes acc + room_b queue.
Proof.
  revert queue acc. induction fuel as [|fuel IH]; intros queue acc Hok Hfuel.
  - destruct queue as [|[[[alo ahi] blo] bhi] queue].
    + exists acc. simpl. split; [done|]. unfold room_a, room_b. simpl. lia.
    + unfold steps in Hfuel. simpl in Hfuel. lia.
  - destruct queue as [|[[[alo ahi] blo] bhi] queue].
    { exists acc. simpl. split; [done|]. unfold room_a, room_b. simpl. lia. }
    apply Forall_cons in Hok as [[Ha Hb] Hok].
    pose proof (find_longest_match_within alo ahi blo bhi Ha Hb) as Hw.
    cbn [drain]. destruct (find_longest_match a b alo ahi blo bhi) as [[i j] k].
    unfold within in Hw. unfold steps, room_a, room_b in *.
    rewrite !fmap_cons in *. cbn [sum_list sum_list_with] in *.
    cbn beta iota in *. unfold id in *.
    destruct (k =? 0) eqn:Hk.
    { destruct (IH queue acc Hok) as (blocks & -> & ? & ?); [lia|].
      exists blocks. split; [done|]. lia. }
    apply Nat.eqb_neq in Hk.
    destruct ((alo <? i) && (blo <? j)), ((i + k <? ahi) && (j + k <? bhi)).
    all: match goal with
         | |- ∃ _, drain _ _ _ ?q ?acc' = _ ∧ _ =>
             destruct (IH q acc') as (blocks & -> & ? & ?)
         end.
    all: repeat (apply Forall_cons; split); try done; try (simpl; lia).
    all: try (rewrite ?fmap_cons; cbn [sum_list sum_list_with]; lia).
    all: exists blocks; (split; [done|]).
    all: rewrite sum_sizes_snoc in *; unfold size_of in *;
      rewrite ?fmap_cons in *; cbn [sum_list sum_list_with snd] in *; lia.
Qed.

Lemma raw_blocks_within :
  ∃ blocks, raw_blocks a b = Some blocks
            ∧ sum_sizes blocks ≤ length a ∧ sum_sizes blocks ≤ length b.
Proof.
  unfold raw_blocks.
  destruct (drain_within (2 * length a + 1) [(0, length a, 0, length b)] [])
    as (blocks & Hrun & Ha & Hb).
  - repeat constructor; lia.
  - unfold steps. simpl. lia.
  - exists blocks. split; [done|]. unfold room_a, room_b, sum_sizes in *.
    simpl in *. lia.
Qed.

Lemma collapse_fold_sum blocks non_adjacent i1 j1 k1 :
  let st := fold_left collapse_step blocks (non_adjacent, (i1, j1, k1)) in
  sum_sizes st.1 + size_of st.2 = sum_sizes non_adjacent + k1 + sum_sizes blocks.
Proof.
  revert non_adjacent i1 j1 k1.
  induction blocks as [|[[i2 j2] k2] blocks IH]; intros na i1 j1 k1.
  - unfold sum_sizes, size_of. simpl. lia.
  - cbn [fold_left collapse_step].
    change (sum_sizes (_ :: blocks)) with (k2 + sum_sizes blocks).
    destruct (_ && _); rewrite IH; [lia|].
    destruct (k1 =? 0) eqn:Hk.
    + apply Nat.eqb_eq in Hk. lia.
    + rewrite sum_sizes_snoc. unfold size_of. simpl. lia.
Qed.

Lemma collapse_sum blocks : sum_sizes (collapse a b blocks) = sum_sizes blocks.
Proof.
  unfold collapse.
  pose proof (collapse_fold_sum blocks [] 0 0 0) as Hsum.
  destruct (fold_left _ _ _) as [na [[i1 j1] k1]].
  unfold size_of in Hsum. simpl in Hsum.
  rewrite sum_sizes_snoc. unfold size_of at 1. simpl.
  destruct (k1 =? 0) eqn:Hk.
  - apply Nat.eqb_eq in Hk. lia.
  - rewrite sum_sizes_snoc. unfold size_of. simpl. lia.
Qed.

Lemma matches_raw blocks :
  raw_blocks a b = Some blocks → matches a b = sum_sizes blocks.
Proof.
  intros Hraw. unfold matches, get_matching_blocks. rewrite Hraw. simpl.
  fold (sum_sizes (collapse a b (merge_sort match_le blocks))).
  rewrite collapse_sum. unfold sum_sizes.
  by rewrite (merge_sort_Permutation match_le blocks).
Qed.

(** The matched elements are elements of [a], and of [b]. *)
Lemma matches_le : matches a b ≤ length a ∧ matches a b ≤ length b.
Proof.
  destruct raw_blocks_within as (blocks & Hraw & Ha & Hb).
  by rewrite (matches_raw blocks Hraw).
Qed.

Lemma ratio_bounds : (0 <= ratio a b <= 1)%Q.
Proof.
  unfold ratio. destruct matches_le as [Ha Hb].
  destruct (length a + length b =? 0) eqn:Hlen; [done|].
  apply Nat.eqb_neq in Hlen. unfold Qle. simpl.
  rewrite <- (positive_nat_Z (Pos.of_nat _)), Nat2Pos.id by done. lia.
Qed.
End MatcherFacts.

(** *** A sequence matched against itself *)
Section SelfMatch.
Import Difflib Spec.
Local Open Scope nat_scope.
Variable a : list ascii.

Lemma filter_seq_sorted (P : nat → Prop) `{!∀ j, Decision (P j)} s n :
  StronglySorted lt (filter P (seq s n))
  ∧ ∀ j, j ∈ filter P (seq s n) → s ≤ j.
Proof.
  revert s. induction n as [|n IH]; intros s; simpl.
  - split; [constructor|]. by intros j ?%elem_of_nil.
  - destruct (IH (S s)) as [Hsorted Hge]. rewrite filter_cons.
    destruct (decide (P s)).
    + split.
      * constructor; [done|]. apply Forall_forall. intros j Hj.
        apply Hge in Hj. lia.
      * intros j [->|Hj%Hge]%elem_of_cons; lia.
    + split; [done|]. intros j Hj%Hge. lia.
Qed.

Lemma positions_spec elt j : j ∈ positions a elt ↔ a !! j = Some elt.
Proof.
  unfold positions. rewrite list_elem_of_filter, elem_of_seq.
  split; [tauto|]. intros Hj. split; [done|].
  apply lookup_lt_Some in Hj. lia.
Qed.

Lemma j2lenget_run r prev j :
  (∀ j k, prev !! j = Some k → k ≤ run a (S j) ∧ k ≤ run a r) →
  j2lenget prev j ≤ run a j ∧ j2lenget prev j ≤ run a r.
Proof.
  intros Hprev. destruct j as [|j]; simpl; [lia|].
  destruct (prev !! j) as [k|] eqn:Hk; simpl; [|lia]. by apply Hprev.
Qed.

(** One row, over the positions of a non-popular [a[r]] that are left. *)
Lemma scan_row_self n r elt prev js new besti bestsize :
  n = length a → a !! r = Some elt → popular a elt = false →
  (∀ j k, prev !! j = Some k → k ≤ run a (S j) ∧ k ≤ run a r) →
  j2lenget prev r = run a r →
  StronglySorted lt js → (∀ j, j ∈ js → a !! j = Some elt) →
  (∀ x, x < r → run a (S x) ≤ bestsize) →
  (∀ j k, new !! j = Some k → k ≤ run a (S j) ∧ k ≤ run a (S r)) →
  r ∈ js ∨ (run a (S r) ≤ bestsize ∧ new !! r = Some (run a (S r))
            ∧ ∀ j, j ∈ js → r < j) →
  before_row a (S r) (scan_row 0 n r prev js new (besti, besti, bestsize)).
Proof.
  intros -> Hr Hpop Hprev Hdiag.
  assert (∀ j, a !! j = Some elt → run a (S j) = S (run a j)) as Hrun.
  { intros j Hj. simpl. by rewrite Hj, Hpop. }
  revert new besti bestsize.
  induction js as [|j js IH]; intros new besti bestsize Hsorted Hjs Hbest Hnew Hr'.
  - simpl. destruct Hr' as [?%elem_of_nil|(Hdone & Hnewr & _)]; [done|].
    split; [done|]. split; [|split; [done|]].
    + intros x Hx. destruct (decide (x = r)) as [->|]; [done|]. apply Hbest. lia.
    + simpl. by rewrite Hnewr.
  - apply StronglySorted_cons in Hsorted as [Hjlt Hsorted].
    assert (a !! j = Some elt) as Hj by (apply Hjs; by left).
    assert (j < length a) as Hjn by (by eapply lookup_lt_Some).
    cbn [scan_row]. replace (j <? 0) with false by done.
    replace (length a <=? j) with false by (symmetry; apply Nat.leb_gt; lia).
    destruct (j2lenget_run r prev j Hprev) as [Hkj Hkr].
    set (k := j2lenget prev j + 1).
    assert (k ≤ run a (S j) ∧ k ≤ run a (S r)) as [Hk1 Hk2].
    { rewrite (Hrun j Hj), (Hrun r Hr). unfold k. lia. }
    assert (∀ j' k', <[j:=k]> new !! j' = Some k' →
                     k' ≤ run a (S j') ∧ k' ≤ run a (S r)) as Hnew'.
    { intros j' k'. destruct (decide (j' = j)) as [->|].
      - rewrite lookup_insert_eq. by intros [= <-].
      - rewrite lookup_insert_ne by done. apply Hnew. }
    destruct (lt_eq_lt_dec j r) as [[Hlt | ->] | Hgt].
    + (* left of the diagonal: no longer than the run met at row [j] *)
      assert ((size_of (besti, besti, bestsize) <? k) = false) as ->.
      { apply Nat.ltb_ge. unfold size_of. simpl. specialize (Hbest j Hlt). lia. }
      apply IH; try done.
      * intros j' Hj'. apply Hjs. by right.
      * destruct Hr' as [[?|?]%elem_of_cons | (_ & _ & Hall)]; [lia|by left|].
        specialize (Hall j ltac:(by left)). lia.
    + (* on the diagonal: the run itself *)
      assert (k = run a (S r)) as Hk by (rewrite (Hrun r Hr); unfold k; lia).
      assert (∀ j, j ∈ js → r < j) as Hafter.
      { intros j' Hj'. rewrite Forall_forall in Hjlt. by apply Hjlt. }
      destruct (size_of (besti, besti, bestsize) <? k) eqn:Hupd.
      * apply Nat.ltb_lt in Hupd. unfold size_of in Hupd. simpl in Hupd.
        apply IH; try done.
        -- intros j' Hj'. apply Hjs. by right.
        -- intros x Hx. specialize (Hbest x Hx). lia.
        -- right. split; [lia|]. split; [|done].
           by rewrite lookup_insert_eq, Hk.
      * apply Nat.ltb_ge in Hupd. unfold size_of in Hupd. simpl in Hupd.
        apply IH; try done.
        -- intros j' Hj'. apply Hjs. by right.
        -- right. split; [lia|]. split; [|done].
           by rewrite lookup_insert_eq, Hk.
    + (* right of the diagonal: the diagonal came first *)
      destruct Hr' as [[?|Hin]%elem_of_cons | (Hdone & Hnewr & Hall)]; [lia| |].
      { rewrite Forall_forall in Hjlt. specialize (Hjlt r Hin). lia. }
      assert ((size_of (besti, besti, bestsize) <? k) = false) as ->.
      { apply Nat.ltb_ge. unfold size_of. simpl. lia. }
      apply IH; try done.
      * intros j' Hj'. apply Hjs. by right.
      * right. split; [done|]. split.
        -- rewrite lookup_insert_ne by lia. done.
        -- intros j' Hj'. apply Hall. by right.
Qed.

Lemma scan_rows_self n :
  n ≤ length a →
  before_row a n
    (fold_left
       (λ st i, scan_row 0 (length a) i st.1
                  (from_option (b2j a) [] (a !! i)) ∅ st.2)
       (seq 0 n) (∅, (0, 0, 0))).
Proof.
  induction n as [|n IH]; intros Hn.
  - simpl. split; [done|]. split; [lia|]. split; [|done].
    by intros ?? ?%lookup_empty_Some.
  - rewrite seq_S, fold_left_app. cbn [fold_left fst snd].
    specialize (IH ltac:(lia)).
    destruct (fold_left _ _ _) as [prev [[besti bestj] bestsize]].
    destruct IH as (<- & Hbest & Hprev & Hdiag). simpl.
    destruct (a !! n) as [elt|] eqn:Helt;
      [|apply lookup_ge_None in Helt; lia].
    simpl. unfold b2j. destruct (popular a elt) eqn:Hpop.
    + (* a popular element has no row *)
      assert (run a (S n) = 0) as Hrun by (simpl; by rewrite Helt, Hpop).
      cbn [scan_row]. split; [done|]. split; [|split].
      * intros x Hx. destruct (decide (x = n)) as [->|]; [rewrite Hrun; lia|].
        apply Hbest. lia.
      * by intros ?? ?%lookup_empty_Some.
      * rewrite Hrun. unfold j2lenget. by rewrite lookup_empty.
    + apply (scan_row_self (length a) n elt); try done.
      all: try (by intros ?? ?%lookup_empty_Some).
      * apply filter_seq_sorted.
      * intros j. apply positions_spec.
      * left. by apply positions_spec.
Qed.

Lemma extend_left_self i k : extend_left a a 0 0 i i k = (0, 0, k + i).
Proof.
  revert k. induction i as [|i IH]; intros k; simpl; [f_equal; lia|].
  rewrite bool_decide_eq_true_2 by done. rewrite IH. f_equal. lia.
Qed.

Lemma extend_right_self fuel n k :
  n = fuel + k →
  extend_right a a fuel n n 0 0 k = (0, 0, n).
Proof.
  revert k. induction fuel as [|fuel IH]; intros k ->; simpl; [done|].
  replace (k <? S (fuel + k)) with true by (symmetry; apply Nat.ltb_lt; lia).
  rewrite bool_decide_eq_true_2 by done. simpl. apply IH. lia.
Qed.

(** The longest match of a sequence with itself is the whole of it. *)
Lemma find_longest_match_self :
  find_longest_match a a 0 (length a) 0 (length a) = (0, 0, length a).
Proof.
  unfold find_longest_match, scan_rows. rewrite Nat.sub_0_r.
  pose proof (scan_rows_self (length a) ltac:(done)) as Hdiag.
  destruct (scan_rows_within a a 0 (length a) 0 (length a) (length a))
    as [_ Hin]; [lia..|].
  destruct (fold_left _ _ _) as [prev [[besti bestj] bestsize]].
  destruct Hdiag as (<- & _). simpl in Hin. simpl.
  rewrite extend_left_self. simpl. apply extend_right_self. lia.
Qed.

Lemma matches_self : matches a a = length a.
Proof.
  assert (raw_blocks a a
          = Some (if length a =? 0 then [] else [(0, 0, length a)])) as Hraw.
  { unfold raw_blocks. replace (2 * length a + 1) with (S (2 * length a)) by lia.
    cbn [drain]. rewrite find_longest_match_self.
    destruct (length a =? 0) eqn:Hlen; [by destruct (2 * length a)|].
    rewrite Nat.ltb_irrefl, andb_false_r. simpl.
    by destruct (length a + (length a + 0)). }
  rewrite (matches_raw a a _ Hraw).
  destruct (length a =? 0) eqn:Hlen; unfold sum_sizes; simpl.
  - apply Nat.eqb_eq in Hlen. lia.
  - unfold size_of. simpl. lia.
Qed.

Lemma ratio_self : (ratio a a == 1)%Q.
Proof.
  unfold ratio. rewrite matches_self.
  destruct (length a + length a =? 0) eqn:Hlen; [done|].
  apply Nat.eqb_neq in Hlen. unfold Qeq. simpl.
  rewrite <- (positive_nat_Z (Pos.of_nat _)), Nat2Pos.id by done. lia.
Qed.
End SelfMatch.



(** At the boundary: seven of ten characters in common give the ratio
    14/20, which reaches the default threshold; six of ten give 12/20,
    which does not. The two headlines of the specification give 62/67. *)
Example ratio_at_the_threshold :
  let headline t := Examples.classified "https://a.example/1" t "" 0 "a" in
  let default := Similarity.Deduplicator__init__ None in
  Similarity.title_ratio (headline "abcdefgxyz") (headline "abcdefgpqr")
  = (14 # 20)%Q
  ∧ Similarity._is_similar default (headline "abcdefgxyz") (headline "abcdefgpqr")
    = true
  ∧ Similarity.title_ratio (headline "abcdefwxyz") (headline "abcdefopqr")
    = (12 # 20)%Q
  ∧ Similarity._is_similar default (headline "abcdefwxyz") (headline "abcdefopqr")
    = false
  ∧ Similarity.title_ratio (headline "Police Raid Brothel in Tel Aviv")
      (headline "Police Raid Brothel in Tel Aviv Area")
    = (62 # 67)%Q.
Proof. repeat split; vm_compute; reflexivity. Qed.

(** * Further properties *)

(** ** The ledger: marking, saving, pruning *)
Section LedgerFacts.
Import Seen.

Lemma store_eq (s1 s2 : SeenStore) :
  _path s1 = _path s2 → _seen s1 = _seen s2 → s1 = s2.
Proof. destruct s1, s2. simpl. by intros -> ->. Qed.

End LedgerFacts.

(** What [mark_seen] leaves under a locator. *)
Lemma mark_seen_entry
    (now : string) (self : Seen.SeenStore) (urls : list string) (url : string) :
  Seen._seen (Seen.mark_seen now self urls) !! url
  = match Seen._seen self !! url with
    | Some ts => Some ts
    | None => if decide (url ∈ urls) then Some now else None
    end.
Proof.
  unfold Seen.mark_seen. revert self.
  induction urls as [|u urls IH]; intros self; simpl.
  - by destruct (Seen._seen self !! url).
  - rewrite IH. destruct (Seen.is_seen self u) eqn:Hu; simpl.
    + apply is_seen_true, elem_of_dom in Hu as [ts Hts].
      destruct (Seen._seen self !! url) eqn:Hurl; [done|].
      assert (url ≠ u) by congruence.
      apply decide_ext. rewrite elem_of_cons. tauto.
    + apply is_seen_false, not_elem_of_dom in Hu.
      destruct (decide (url = u)) as [->|Hne].
      * rewrite lookup_insert_eq, Hu. rewrite decide_True; [done|by left].
      * rewrite lookup_insert_ne by done.
        destruct (Seen._seen self !! url); [done|].
        apply decide_ext. rewrite elem_of_cons. tauto.
Qed.

(** X1. [mark_seen] gives the current time to the locators that are new
    and leaves every entry that is already there as it is: a first-seen
    timestamp is never overwritten. *)
Theorem mark_seen_lookup
    (now : string) (self : Seen.SeenStore) (urls : list string) (url : string) :
  Seen._seen (Seen.mark_seen now self urls) !! url
  = match Seen._seen self !! url with
    | Some ts => Some ts
    | None => if decide (url ∈ urls) then Some now else None
    end.
Proof. apply mark_seen_entry. Qed.

(** X2. Marking the same locators again, at any later time, changes
    nothing. *)
Theorem mark_seen_again
    (now later : string) (self : Seen.SeenStore) (urls : list string) :
  Seen.mark_seen later (Seen.mark_seen now self urls) urls
  = Seen.mark_seen now self urls.
Proof.
  apply store_eq; [by rewrite !mark_seen_path|].
  apply map_eq. intros url. rewrite !mark_seen_entry.
  destruct (Seen._seen self !! url); [done|]. by destruct (decide (url ∈ urls)).
Qed.

(** X3. The locators [filter_unseen] returns after [mark_seen] are those
    it returned before, without the marked ones; asked about the marked
    locators themselves it returns none. *)
Theorem filter_unseen_after_mark_seen
    (now : string) (self : Seen.SeenStore) (marked urls : list string) :
  Seen.filter_unseen (Seen.mark_seen now self marked) urls
  = filter (λ url, url ∉ marked) (Seen.filter_unseen self urls)
  ∧ Seen.filter_unseen (Seen.mark_seen now self marked) marked = [].
Proof.
  assert (∀ l, Seen.filter_unseen (Seen.mark_seen now self marked) l
               = filter (λ url, url ∉ marked) (Seen.filter_unseen self l)) as H.
  { intros l. unfold Seen.filter_unseen. rewrite list_filter_filter.
    apply list_filter_iff. intros url.
    rewrite !is_seen_false, mark_seen_dom. set_solver. }
  split; [apply H|]. rewrite H. apply filter_none, Forall_forall.
  intros url Hurl%list_elem_of_filter. tauto.
Qed.

(** X4. After [mark_seen] the ledger holds the locators it held and the
    marked ones, each once: [count] is the size of their union, and never
    goes down. *)
Theorem count_after_mark_seen
    (now : string) (self : Seen.SeenStore) (urls : list string) :
  Seen.count (Seen.mark_seen now self urls)
  = size (dom (Seen._seen self) ∪ list_to_set urls)
  ∧ (Seen.count self ≤ Seen.count (Seen.mark_seen now self urls))%nat.
Proof.
  unfold Seen.count. rewrite <- !size_dom, mark_seen_dom. split; [done|].
  apply subseteq_size. set_solver.
Qed.

(** X5. A [save] that succeeds writes a file from which [SeenStore(path)]
    loads the same store, and touches no other file. *)
Theorem save_then_load
    (now : string) (self : Seen.SeenStore) (d : disk) :
  ∃ d', Seen.save WriteOk now self d = Return d'
        ∧ Seen.__init__ (Seen._path self) d' = Return self
        ∧ ∀ path, path ≠ Seen._path self → d' !! path = d !! path.
Proof.
  eexists. split; [done|]. split.
  - by apply (load_after_save now self d).
  - intros path Hpath. by rewrite lookup_insert_ne.
Qed.


Lemma to_dict_missing members key :
  key ∉ members.*1 → to_dict members !! key = None.
Proof.
  intros Hkey. unfold to_dict. apply not_elem_of_list_to_map_1.
  by rewrite fmap_reverse, elem_of_reverse.
Qed.

(** X7. [SeenStore(path)] starts empty, without raising, when the ledger
    file is missing, cannot be read, is not JSON, or is a JSON object with
    no ["urls"] member. *)
Theorem load_falls_back_to_empty (path : string) (d : disk) :
  d !! path = None ∨ d !! path = Some Unreadable ∨ d !! path = Some NotJson
  ∨ (∃ members, d !! path = Some (Json (JObj members))
                ∧ "urls" ∉ members.*1) →
  Seen.__init__ path d = Return {| Seen._path := path; Seen._seen := ∅ |}.
Proof.
  unfold Seen.__init__, Seen._load.
  intros [-> | [-> | [-> | (members & -> & Hurls)]]]; try by vm_compute.
  cbn [json_load mbind outcome_bind dict_get].
  rewrite (to_dict_missing _ _ Hurls). by vm_compute.
Qed.

Lemma load_falls_back_to_empty_witness :
  let d : disk :=
    {[ "data/seen.json" := Json (JObj [("updated_at", JStr "yesterday")]) ]} in
  (∃ members, d !! "data/seen.json" = Some (Json (JObj members))
              ∧ "urls" ∉ members.*1)
  ∧ Seen.__init__ "data/seen.json" d = Return (Examples.store_of ∅).
Proof.
  intros d.
  assert (∃ members, d !! "data/seen.json" = Some (Json (JObj members))
                     ∧ "urls" ∉ members.*1) as Hd.
  { exists [("updated_at", JStr "yesterday")]. split; [reflexivity|].
    cbn [fmap list_fmap fst]. rewrite not_elem_of_cons.
    split; [done|apply not_elem_of_nil]. }
  split; [exact Hd|].
  exact (load_falls_back_to_empty "data/seen.json" d
           (or_intror (or_intror (or_intror Hd)))).
Defined.

(** ** Primary, grouping and unification *)
Section UnifyFacts.
Import Models Similarity Spec.




Lemma group_to_unified_unifies g :
  articles g ≠ [] → ∃ item, _group_to_unified g = Return item ∧ unifies g item.
Proof.
  intros Hg. destruct (primary_return g Hg) as (p & Hp & Hin & _).
  unfold _group_to_unified. rewrite Hp. simpl. eexists. split; [done|].
  exists p. by repeat split.
Qed.

Lemma map_each_unifies groups :
  Forall nonempty groups →
  ∃ items, map_each _group_to_unified groups = Return items
           ∧ Forall2 unifies groups items.
Proof.
  induction 1 as [|g groups Hg _ (items & Hitems & Hall)]; simpl.
  - exists []. by split.
  - destruct (group_to_unified_unifies g Hg) as (item & -> & Hitem). simpl.
    rewrite Hitems. simpl. exists (item :: items). split; [done|by constructor].
Qed.

(** [deduplicate] returns, with one item for each group of [group]. *)
Lemma deduplicate_groups self input :
  ∃ groups items,
    group self input = Return groups
    ∧ deduplicate self input = Return items
    ∧ Forall2 unifies groups items
    ∧ concat (articles <$> groups) ≡ₚ input
    ∧ Forall nonempty groups.
Proof.
  destruct (group_partitions self input) as (groups & Hrun & _ & Hne & Hperm & _).
  destruct (map_each_unifies groups Hne) as (items & Hitems & Hall).
  exists groups, items. unfold deduplicate. rewrite Hrun. simpl.
  by rewrite Hitems.
Qed.

Lemma unifies_sources groups items :
  Forall2 unifies groups items →
  (item ← items; sources item) = reference <$> concat (articles <$> groups).
Proof.
  induction 1 as [|g item groups items (p & _ & _ & _ & _ & _ & _ & _ & Hsrc) _ IH];
    [done|].
  rewrite bind_cons, fmap_cons, concat_cons, fmap_app. by rewrite Hsrc, IH.
Qed.

End UnifyFacts.



(** X9. [deduplicate] never raises; it returns one item for each group of
    [group], in the order of the groups; an item takes its headline,
    summary, date, category and sub-category from the primary of its group
    and has one source reference for each member, in insertion order. *)
Theorem deduplicate_unifies_every_group
    (self : Similarity.Deduplicator) (input : list Models.ClassifiedArticle) :
  ∃ groups items,
    Similarity.group self input = Return groups
    ∧ Similarity.deduplicate self input = Return items
    ∧ Forall2 Spec.unifies groups items.
Proof.
  destruct (deduplicate_groups self input) as (groups & items & ? & ? & ? & _).
  by exists groups, items.
Qed.

(** X10. No reference is lost or merged: the source references of all the
    items are the references of the input articles, each as often as it
    occurs (two articles with one locator give two references), and every
    item has at least one. *)
Theorem deduplicate_keeps_every_source
    (self : Similarity.Deduplicator) (input : list Models.ClassifiedArticle) :
  ∃ items,
    Similarity.deduplicate self input = Return items
    ∧ (item ← items; Models.sources item) ≡ₚ Spec.reference <$> input
    ∧ Forall (λ item, Models.sources item ≠ []) items.
Proof.
  destruct (deduplicate_groups self input)
    as (groups & items & _ & Hdd & Hall & Hperm & Hne).
  exists items. split; [done|]. split.
  - rewrite (unifies_sources groups items Hall). by rewrite Hperm.
  - clear Hdd Hperm. induction Hall as [|g item groups items Hu _ IH];
      [constructor|].
    apply Forall_cons in Hne as [Hg Hne]. constructor; [|by apply IH].
    destruct Hu as (p & _ & _ & _ & _ & _ & _ & _ & ->).
    unfold Spec.nonempty in Hg. by destruct (Similarity.articles g).
Qed.

Section ThresholdFacts.
Import Models Similarity Spec.
Variable self : Deduplicator.

Lemma placed_in_one article g groups' :
  placed self article [g] groups' →
  (like self article g ∧ groups' = [add article g])
  ∨ (unlike self article g ∧ groups' = [g; ArticleGroup__init__ article]).
Proof.
  inversion 1 as [pre g' post Hpre Hlike Heq | groups Hall]; subst.
  - destruct pre as [|x pre]; simpl in *.
    + injection Heq as -> ->. by left.
    + injection Heq as -> Heq. by destruct pre.
  - right. apply Forall_cons in Hall as [Hall _]. split; [exact Hall|reflexivity].
Qed.

(** When every article is similar enough to every other, all of them end
    in one group. *)
Lemma group_all_alike input :
  (∀ a p, a ∈ input → p ∈ input → _is_similar self a p = true) →
  input ≠ [] →
  group self input = Return [{| articles := input |}].
Proof.
  induction input as [|a l IH] using rev_ind; intros Hsim Hne; [done|].
  destruct l as [|x l]; [done|].
  assert (group self (x :: l) = Return [{| articles := x :: l |}]) as Hrun.
  { apply IH; [|done]. intros ????. apply Hsim; set_solver. }
  destruct (group_snoc self _ a _ Hrun) as (groups' & -> & Hplaced).
  apply placed_in_one in Hplaced as [[_ ->] | [(p & Hp & Hun) _]]; [done|].
  destruct (primary_return {| articles := x :: l |}) as (p' & Hp' & Hin & _);
    [done|].
  rewrite Hp in Hp'. injection Hp' as <-. simpl in Hin.
  rewrite Hsim in Hun; [done| |]; set_solver.
Qed.

(** When no article is similar enough to another, each is alone. *)
Lemma group_none_alike input :
  (∀ a p, a ∈ input → p ∈ input → _is_similar self a p = false) →
  group self input = Return (ArticleGroup__init__ <$> input).
Proof.
  induction input as [|a l IH] using rev_ind; intros Hsim; [done|].
  assert (group self l = Return (ArticleGroup__init__ <$> l)) as Hrun.
  { apply IH. intros ????. apply Hsim; set_solver. }
  destruct (group_snoc self _ a _ Hrun) as (groups' & -> & Hplaced).
  inversion Hplaced as [pre g post Hpre (p & Hp & Hlike) Heq | groups Hall];
    subst; [|by rewrite fmap_app].
  assert (g ∈ ArticleGroup__init__ <$> l) as Hg by (rewrite <- Heq; set_solver).
  apply list_elem_of_fmap in Hg as (x & -> & Hx).
  injection Hp as <-. rewrite Hsim in Hlike; [done| |]; set_solver.
Qed.

Lemma is_similar_low a p :
  (_threshold self <= 0)%Q → _is_similar self a p = true.
Proof.
  intros Hthr. apply Qle_bool_iff. eapply Qle_trans; [exact Hthr|].
  apply ratio_bounds.
Qed.

Lemma is_similar_high a p :
  (1 < _threshold self)%Q → _is_similar self a p = false.
Proof.
  intros Hthr. unfold _is_similar. apply not_true_iff_false.
  rewrite Qle_bool_iff.
  apply Qlt_not_le. eapply Qle_lt_trans; [|exact Hthr]. apply ratio_bounds.
Qed.

Lemma is_similar_same_title a p :
  (_threshold self <= 1)%Q →
  lower (title (article a)) = lower (title (article p)) →
  _is_similar self a p = true.
Proof.
  intros Hthr Hsame. apply Qle_bool_iff. unfold title_ratio. rewrite Hsame.
  by rewrite ratio_self.
Qed.

End ThresholdFacts.

(** X11. With a threshold of 0 or less every article is similar enough to
    every other: a non-empty input ends in one group, which holds the
    whole input in its order. *)
Theorem threshold_zero_groups_everything
    (self : Similarity.Deduplicator) (input : list Models.ClassifiedArticle) :
  (Similarity._threshold self <= 0)%Q → input ≠ [] →
  Similarity.group self input = Return [{| Similarity.articles := input |}].
Proof.
  intros Hthr Hne. apply group_all_alike; [|done].
  intros. by apply is_similar_low.
Qed.

Lemma threshold_zero_groups_everything_witness :
  let self := Similarity.Deduplicator__init__ (Some 0%Q) in
  let input := [Examples.short_item; Examples.long_feb_14] in
  ((Similarity._threshold self <= 0)%Q ∧ input ≠ [])
  ∧ Similarity.group self input = Return [{| Similarity.articles := input |}].
Proof.
  intros self input.
  assert ((Similarity._threshold self <= 0)%Q) as Hthr by apply Qle_refl.
  assert (input ≠ []) as Hne by done.
  split; [by split|]. exact (threshold_zero_groups_everything self input Hthr Hne).
Defined.

(** X12. With a threshold above 1 no article is similar enough to another,
    not even to one with the same title: every article is a group of its
    own, in the order of the input. *)
Theorem threshold_above_one_groups_nothing
    (self : Similarity.Deduplicator) (input : list Models.ClassifiedArticle) :
  (1 < Similarity._threshold self)%Q →
  Similarity.group self input
  = Return (Similarity.ArticleGroup__init__ <$> input).
Proof.
  intros Hthr. apply group_none_alike. intros. by apply is_similar_high.
Qed.

Lemma threshold_above_one_groups_nothing_witness :
  let self := Similarity.Deduplicator__init__ (Some (11 # 10)%Q) in
  let input := [Examples.short_item; Examples.short_item] in
  (1 < Similarity._threshold self)%Q
  ∧ Similarity.group self input
    = Return [{| Similarity.articles := [Examples.short_item] |};
              {| Similarity.articles := [Examples.short_item] |}].
Proof.
  intros self input.
  assert ((1 < Similarity._threshold self)%Q) as Hthr by reflexivity.
  split; [exact Hthr|].
  exact (threshold_above_one_groups_nothing self input Hthr).
Defined.

(** X13. Articles whose titles are equal up to case end in one group,
    whatever the threshold up to 1: reports with one headline are always
    collapsed. *)
Theorem same_title_one_group
    (self : Similarity.Deduplicator) (input : list Models.ClassifiedArticle)
    (lowered : list ascii) :
  (Similarity._threshold self <= 1)%Q →
  (∀ a, a ∈ input → lower (Models.title (Models.article a)) = lowered) →
  input ≠ [] →
  Similarity.group self input = Return [{| Similarity.articles := input |}].
Proof.
  intros Hthr Hsame Hne. apply group_all_alike; [|done].
  intros a p Ha Hp. apply is_similar_same_title; [done|].
  by rewrite (Hsame a Ha), (Hsame p Hp).
Qed.

Lemma same_title_one_group_witness :
  let self := Similarity.Deduplicator__init__ (Some 1%Q) in
  let input := [Examples.short_item; Examples.long_feb_15; Examples.long_feb_14] in
  ((Similarity._threshold self <= 1)%Q
   ∧ (∀ a, a ∈ input →
        lower (Models.title (Models.article a)) = lower "police raid brothel")
   ∧ input ≠ [])
  ∧ Similarity.group self input = Return [{| Similarity.articles := input |}].
Proof.
  intros self input.
  assert ((Similarity._threshold self <= 1)%Q) as Hthr by apply Qle_refl.
  assert (∀ a, a ∈ input →
            lower (Models.title (Models.article a)) = lower "police raid brothel")
    as Hsame.
  { intros a Ha. unfold input in Ha. rewrite !elem_of_cons in Ha.
    destruct Ha as [-> | [-> | [-> | []%elem_of_nil]]]; reflexivity. }
  assert (input ≠ []) as Hne by done.
  split; [by repeat split|].
  exact (same_title_one_group self input _ Hthr Hsame Hne).
Defined.

(** ** The classifier *)
Section ClassifierFacts.
Import Models Relevance.
Variable json_loads : string → option json.
Variable messages_create : string → string → outcome string.

Lemma parse_data_non_object data :
  (∀ members, data ≠ JObj members) → parse_data data = Raise AttributeError.
Proof. intros Hdata. destruct data; try done. by destruct (Hdata members). Qed.

Lemma parse_response_confidence text r :
  _parse_response json_loads text = Return r →
  confidence r ∈ ["high"; "medium"; "low"].
Proof.
  unfold _parse_response.
  destruct (json_loads (unfenced text)) as [data|];
    [|intros [= <-]; set_solver].
  destruct data as [| | | | |members];
    try (rewrite parse_data_non_object by done; done).
  rewrite parse_data_object. intros [= <-]. simpl.
  destruct (as_str _) as [c|]; [|set_solver].
  case_bool_decide; [done|set_solver].
Qed.

Lemma classify_cases article :
  (∃ r, classify json_loads messages_create article = Return r
        ∧ confidence r ∈ ["high"; "medium"; "low"])
  ∨ (∃ e, classify json_loads messages_create article = Raise e)
  ∨ classify json_loads messages_create article = IllTyped.
Proof.
  unfold classify.
  destruct (messages_create _ _) as [text|e|]; simpl; [| |by right; right].
  - destruct (_parse_response json_loads text) as [r|e|] eqn:Hr; simpl.
    + left. exists r. split; [done|]. by eapply parse_response_confidence.
    + destruct e; eauto. left. eexists. split; [done|]. set_solver.
    + by right; right.
  - destruct e; eauto. left. eexists. split; [done|]. set_solver.
Qed.

Lemma classify_non_object article text data :
  messages_create (title article) (first_300 (snippet article)) = Return text →
  json_loads (unfenced text) = Some data →
  (∀ members, data ≠ JObj members) →
  classify json_loads messages_create article = Raise AttributeError.
Proof.
  intros Hreply Hdata Hshape. unfold classify, _parse_response.
  rewrite Hreply. simpl. rewrite Hdata.
  by rewrite (parse_data_non_object data Hshape).
Qed.

Lemma classify_batch_members articles cs :
  classify_batch json_loads messages_create articles = Return cs →
  Forall2 (λ a c, article c = a
                  ∧ classify json_loads messages_create a
                    = Return (classification c)) articles cs.
Proof.
  unfold classify_batch. intros Hcs%map_each_Return.
  eapply Forall2_impl; [exact Hcs|]. intros a c. simpl.
  destruct (classify json_loads messages_create a); simpl; try done.
  by intros [= <-].
Qed.

End ClassifierFacts.

(** X14. A classification that [classify] returns has a confidence that is
    one of high, medium and low, whatever the service answered. *)
Theorem classify_confidence_is_a_level
    (json_loads : string → option json)
    (messages_create : string → string → outcome string)
    (article : Models.RawArticle) (r : Models.ClassificationResult) :
  Relevance.classify json_loads messages_create article = Return r →
  Models.confidence r ∈ ["high"; "medium"; "low"].
Proof.
  intros Hr.
  destruct (classify_cases json_loads messages_create article)
    as [(r' & Hr' & Hlevel) | [[e He] | Hill]]; congruence.
Qed.

Lemma classify_confidence_is_a_level_witness :
  Relevance.classify Examples.world_loads
    (Pipeline.messages_create Examples.world) Examples.ynet_raid
  = Return Examples.brothel_closure
  ∧ Models.confidence Examples.brothel_closure ∈ ["high"; "medium"; "low"].
Proof.
  assert (Relevance.classify Examples.world_loads
            (Pipeline.messages_create Examples.world) Examples.ynet_raid
          = Return Examples.brothel_closure) as Hr.
  { vm_compute. reflexivity. }
  split; [exact Hr|].
  exact (classify_confidence_is_a_level _ _ _ _ Hr).
Defined.

(** X15. [classify] raises when the service answers with JSON that is not
    an object (a list, a string, a number, [null]): [_parse_response]
    catches [JSONDecodeError] and [KeyError], [classify] catches
    [APIError], and the [AttributeError] of [data.get] is neither. *)
Theorem classify_raises_on_non_object
    (json_loads : string → option json)
    (messages_create : string → string → outcome string)
    (article : Models.RawArticle) (text : string) (data : json) :
  messages_create (Models.title article)
    (Relevance.first_300 (Models.snippet article)) = Return text →
  json_loads (Relevance.unfenced text) = Some data →
  (∀ members, data ≠ JObj members) →
  Relevance._parse_response json_loads text = Raise AttributeError
  ∧ Relevance.classify json_loads messages_create article = Raise AttributeError
  ∧ Relevance.classify_batch json_loads messages_create [article]
    = Raise AttributeError.
Proof.
  intros Hreply Hdata Hshape.
  pose proof (classify_non_object _ _ _ _ _ Hreply Hdata Hshape) as Hraise.
  split; [|split; [done|]].
  - unfold Relevance._parse_response. rewrite Hdata.
    by rewrite (parse_data_non_object data Hshape).
  - unfold Relevance.classify_batch. simpl. by rewrite Hraise.
Qed.

Lemma classify_raises_on_non_object_witness :
  (Examples.list_reply (Models.title Examples.ynet_raid)
     (Relevance.first_300 (Models.snippet Examples.ynet_raid)) = Return "[]"
   ∧ Examples.list_loads (Relevance.unfenced "[]") = Some (JArr [])
   ∧ ∀ members, JArr [] ≠ JObj members)
  ∧ Relevance._parse_response Examples.list_loads "[]" = Raise AttributeError
  ∧ Relevance.classify Examples.list_loads Examples.list_reply
      Examples.ynet_raid = Raise AttributeError
  ∧ Relevance.classify_batch Examples.list_loads Examples.list_reply
      [Examples.ynet_raid] = Raise AttributeError.
Proof.
  assert (Examples.list_reply (Models.title Examples.ynet_raid)
            (Relevance.first_300 (Models.snippet Examples.ynet_raid))
          = Return "[]") as Hreply by reflexivity.
  assert (Examples.list_loads (Relevance.unfenced "[]") = Some (JArr []))
    as Hdata.
  { vm_compute. reflexivity. }
  assert (∀ members, JArr [] ≠ JObj members) as Hshape.
  { intros members H. discriminate H. }
  split; [by repeat split|].
  exact (classify_raises_on_non_object Examples.list_loads Examples.list_reply
           Examples.ynet_raid "[]" (JArr []) Hreply Hdata Hshape).
Defined.

(** X16. [classify_batch] returns one classified article for each article,
    in the order of the input, each holding its article and what
    [classify] returned for it. *)
Theorem classify_batch_keeps_order
    (json_loads : string → option json)
    (messages_create : string → string → outcome string)
    (articles : list Models.RawArticle) (cs : list Models.ClassifiedArticle) :
  Relevance.classify_batch json_loads messages_create articles = Return cs →
  Models.article <$> cs = articles
  ∧ Forall (λ c, Relevance.classify json_loads messages_create (Models.article c)
                 = Return (Models.classification c)) cs.
Proof.
  intros Hcs%classify_batch_members.
  induction Hcs as [|a c articles cs [<- Hc] _ [IH1 IH2]]; [by split|].
  split; [by rewrite fmap_cons, IH1|by constructor].
Qed.

Lemma classify_batch_keeps_order_witness :
  let cs := [{| Models.article := Examples.ynet_raid;
                Models.classification := Examples.brothel_closure |};
             {| Models.article := Examples.ynet_rain;
                Models.classification := Examples.not_relevant_high |}] in
  Relevance.classify_batch Examples.world_loads
    (Pipeline.messages_create Examples.world) Examples.ynet_feed = Return cs
  ∧ Models.article <$> cs = Examples.ynet_feed
  ∧ Forall (λ c, Relevance.classify Examples.world_loads
                   (Pipeline.messages_create Examples.world) (Models.article c)
                 = Return (Models.classification c)) cs.
Proof.
  intros cs.
  assert (Relevance.classify_batch Examples.world_loads
            (Pipeline.messages_create Examples.world) Examples.ynet_feed
          = Return cs) as Hcs.
  { vm_compute. reflexivity. }
  split; [exact Hcs|].
  exact (classify_batch_keeps_order _ _ _ _ Hcs).
Defined.

Section FallbackFacts.
Import Models Relevance.

Lemma classify_fallback json_loads messages_create article :
  messages_create (title article) (first_300 (snippet article)) = Raise APIError
  ∨ (∃ text, messages_create (title article) (first_300 (snippet article))
             = Return text
             ∧ json_loads (unfenced text) = None) →
  classify json_loads messages_create article = Return not_relevant_low.
Proof.
  unfold classify, _parse_response.
  intros [-> | (text & -> & Hloads)]; [done|]. simpl. by rewrite Hloads.
Qed.

End FallbackFacts.

(** X17. When the service raises [APIError], or answers with text that
    [json.loads] rejects, [classify] does not raise: it returns the
    not-relevant result with confidence low, and [classify_articles] drops
    the article and goes on with the others. *)
Theorem classify_falls_back_on_failure
    (w : Pipeline.World) (article : Models.RawArticle)
    (articles : list Models.RawArticle) :
  Pipeline.messages_create w (Models.title article)
    (Relevance.first_300 (Models.snippet article)) = Raise APIError
  ∨ (∃ text, Pipeline.messages_create w (Models.title article)
               (Relevance.first_300 (Models.snippet article)) = Return text
             ∧ Pipeline.json_loads w (Relevance.unfenced text) = None) →
  Relevance.classify (Pipeline.json_loads w) (Pipeline.messages_create w) article
  = Return Relevance.not_relevant_low
  ∧ Pipeline.classify_articles w (article :: articles)
    = Pipeline.classify_articles w articles.
Proof.
  intros Hfail%classify_fallback. split; [exact Hfail|].
  unfold Pipeline.classify_articles, Relevance.classify_batch.
  cbn [map_each]. rewrite Hfail.
  destruct (map_each _ articles) as [cs| |]; reflexivity.
Qed.

Lemma classify_falls_back_on_failure_witness :
  Pipeline.messages_create Examples.world_down (Models.title Examples.ynet_raid)
    (Relevance.first_300 (Models.snippet Examples.ynet_raid)) = Raise APIError
  ∧ Relevance.classify (Pipeline.json_loads Examples.world_down)
      (Pipeline.messages_create Examples.world_down) Examples.ynet_raid
    = Return Relevance.not_relevant_low
  ∧ Pipeline.classify_articles Examples.world_down
      (Examples.ynet_raid :: [Examples.ynet_rain])
    = Pipeline.classify_articles Examples.world_down [Examples.ynet_rain].
Proof.
  assert (Pipeline.messages_create Examples.world_down
            (Models.title Examples.ynet_raid)
            (Relevance.first_300 (Models.snippet Examples.ynet_raid))
          = Raise APIError) as Hdown by reflexivity.
  split; [exact Hdown|].
  exact (classify_falls_back_on_failure Examples.world_down Examples.ynet_raid
           [Examples.ynet_rain] (or_introl Hdown)).
Defined.

(** ** Strings: stripping, splitting, joining *)
Section StringFacts.

Lemma append_nil (s : string) : ("" ++ s = s)%string.
Proof. reflexivity. Qed.

Lemma append_cons c (s1 s2 : string) :
  (String c s1 ++ s2 = String c (s1 ++ s2))%string.
Proof. reflexivity. Qed.

Lemma append_assoc (s1 s2 s3 : string) :
  ((s1 ++ s2) ++ s3 = s1 ++ s2 ++ s3)%string.
Proof.
  induction s1 as [|c s1 IH]; [done|]. rewrite !append_cons. by f_equal.
Qed.

(** Appends nested to the right, with the characters of the literals in
    front of them. *)
Ltac flatten :=
  unfold newline;
  repeat first [rewrite append_assoc | rewrite append_cons | rewrite append_nil].

Lemma list_ascii_of_string_app (s1 s2 : string) :
  list_ascii_of_string (s1 ++ s2)
  = list_ascii_of_string s1 ++ list_ascii_of_string s2.
Proof.
  induction s1 as [|c s1 IH]; [done|].
  rewrite append_cons. cbn [list_ascii_of_string app]. by f_equal.
Qed.

Lemma lstrip_spaces ws rest :
  Forall (λ c, isspace c = true) ws → lstrip (ws ++ rest) = lstrip rest.
Proof. induction 1 as [|c ws Hc _ IH]; simpl; [done|by rewrite Hc]. Qed.

Lemma lstrip_stops c rest : isspace c = false → lstrip (c :: rest) = c :: rest.
Proof. intros Hc. simpl. by rewrite Hc. Qed.

(** [strip] removes the white space around a text whose first and last
    characters are no white space, and nothing else. *)
Lemma strip_around (ws ws' : string) c middle c' :
  Forall (λ c, isspace c = true) (list_ascii_of_string ws) →
  Forall (λ c, isspace c = true) (list_ascii_of_string ws') →
  isspace c = false → isspace c' = false →
  strip (ws ++ String c (middle ++ String c' ws'))
  = String c (middle ++ String c' "").
Proof.
  intros Hws Hws' Hc Hc'. unfold strip.
  rewrite list_ascii_of_string_app. cbn [list_ascii_of_string].
  rewrite lstrip_spaces, lstrip_stops by done.
  rewrite list_ascii_of_string_app. cbn [list_ascii_of_string].
  rewrite reverse_cons, reverse_app, reverse_cons, <- !app_assoc.
  rewrite lstrip_spaces by by apply Forall_reverse.
  cbn [app]. rewrite lstrip_stops by done.
  rewrite reverse_cons, reverse_app, !reverse_involutive. cbn [reverse app].
  rewrite <- (string_of_list_ascii_of_string (String c (middle ++ String c' ""))).
  f_equal. cbn [list_ascii_of_string]. rewrite list_ascii_of_string_app.
  by rewrite <- app_assoc.
Qed.

Lemma split_lines_nonempty text : split_lines text ≠ [].
Proof.
  destruct text as [|c text]; simpl; [done|].
  case_bool_decide; [done|]. by destruct (split_lines text).
Qed.

Lemma split_lines_one_line text :
  "010"%char ∉ list_ascii_of_string text → split_lines text = [text].
Proof.
  induction text as [|c text IH]; simpl; [done|].
  rewrite not_elem_of_cons. intros [Hc Htext].
  rewrite bool_decide_false by done. by rewrite IH.
Qed.

(** [(x + "\n" + y).split("\n") == x.split("\n") + y.split("\n")] *)
Lemma split_lines_app x y :
  split_lines (x ++ newline ++ y) = split_lines x ++ split_lines y.
Proof.
  induction x as [|c x IH]; [done|].
  change (String c x ++ newline ++ y)%string
    with (String c (x ++ newline ++ y)).
  cbn [split_lines]. rewrite IH. case_bool_decide; [done|].
  pose proof (split_lines_nonempty x). by destruct (split_lines x).
Qed.

(** ["\n".join(text.split("\n")) == text] *)
Lemma concat_split_lines text :
  String.concat newline (split_lines text) = text.
Proof.
  induction text as [|c text IH]; [done|]. cbn [split_lines].
  pose proof (split_lines_nonempty text) as Hne.
  destruct (split_lines text) as [|line lines]; [done|].
  case_bool_decide as Hc.
  - subst c. cbn [String.concat]. cbn [String.concat] in IH.
    by rewrite IH.
  - rewrite <- IH. by destruct lines.
Qed.

Lemma unfenced_fenced (tag body before after : string) :
  "010"%char ∉ list_ascii_of_string tag →
  Forall (λ c, isspace c = true) (list_ascii_of_string before) →
  Forall (λ c, isspace c = true) (list_ascii_of_string after) →
  Relevance.unfenced (before ++ Spec.fenced tag body ++ after) = body.
Proof.
  intros Htag Hbefore Hafter. unfold Relevance.unfenced.
  assert (strip (before ++ Spec.fenced tag body ++ after)
          = Spec.fenced tag body) as ->.
  { unfold Spec.fenced.
    replace (("```" ++ tag ++ newline ++ body ++ newline ++ "```") ++ after)%string
      with (String "`" (("``" ++ tag ++ newline ++ body ++ newline ++ "``")
                        ++ String "`" after))%string.
    2:{ by flatten. }
    rewrite strip_around by done. by flatten. }
  assert (String.prefix "```" (Spec.fenced tag body) = true) as ->.
  { unfold Spec.fenced. by destruct tag. }
  assert (split_lines (Spec.fenced tag body)
          = (("```" ++ tag)%string :: split_lines body) ++ ["```"]) as ->.
  { unfold Spec.fenced.
    replace ("```" ++ tag ++ newline ++ body ++ newline ++ "```")%string
      with (("```" ++ tag) ++ newline ++ (body ++ newline ++ "```"))%string
      by by rewrite !append_assoc.
    rewrite !split_lines_app. rewrite split_lines_one_line; [done|].
    rewrite list_ascii_of_string_app. cbn [list_ascii_of_string].
    rewrite not_elem_of_app, !not_elem_of_cons. split; [|done].
    repeat split; try done. apply not_elem_of_nil. }
  rewrite last_snoc, bool_decide_true by done.
  cbn [app tail]. rewrite removelast_last. apply concat_split_lines.
Qed.

End StringFacts.

(** X18. A reply wrapped in a markdown code block, with any language tag on
    the opening fence and any white space around the block, is handed to
    [json.loads] as the bare body of the block, whatever the body is. *)
Theorem unfenced_strips_the_fence (tag body before after : string) :
  Spec.one_line tag → Spec.blank before → Spec.blank after →
  Relevance.unfenced (before ++ Spec.fenced tag body ++ after) = body.
Proof. apply unfenced_fenced. Qed.

Lemma unfenced_strips_the_fence_witness :
  let body := Examples.response_text "brothel" "rescue" in
  (Spec.one_line "json" ∧ Spec.blank " " ∧ Spec.blank newline)
  ∧ Relevance.unfenced (" " ++ Spec.fenced "json" body ++ newline) = body.
Proof.
  intros body.
  assert (Spec.one_line "json") as Htag.
  { unfold Spec.one_line. cbn [list_ascii_of_string].
    rewrite !not_elem_of_cons. repeat split; try done. apply not_elem_of_nil. }
  assert (Spec.blank " ") as Hbefore by (by repeat constructor).
  assert (Spec.blank newline) as Hafter by (by repeat constructor).
  split; [by repeat split|].
  exact (unfenced_strips_the_fence "json" body " " newline Htag Hbefore Hafter).
Defined.

(** ** Runs *)
Section RunFacts.
Import Models Config Pipeline Spec.




End RunFacts.

Section StageFacts.
Import Models Config Pipeline Spec.

Lemma create_sources_from l acc :
  fold_left
    (λ sources source_cfg,
       if negb (enabled source_cfg) then sources
       else match type source_cfg with
            | RSS =>
                match Config.url source_cfg with
                | Some u => if bool_decide (u = "") then sources
                            else sources ++ [RSSSource (name source_cfg) u]
                | None => sources
                end
            | SCRAPER =>
                if bool_decide (name source_cfg = "mako")
                then sources ++ [MakoSource]
                else if bool_decide (name source_cfg = "maariv")
                then sources ++ [MaarivSource]
                else sources
            end)
    l acc
  = acc ++ omap source_of l.
Proof.
  revert acc. induction l as [|c l IH]; intros acc; cbn [fold_left omap list_omap].
  - by rewrite app_nil_r.
  - rewrite IH. unfold source_of at 2.
    destruct (enabled c); simpl; [|done].
    destruct (type c).
    + destruct (Config.url c) as [u|]; [|done].
      case_bool_decide; [done|]. simpl. by rewrite <- app_assoc.
    + repeat case_bool_decide; simpl; by rewrite <- ?app_assoc.
Qed.

Lemma fetch_all_from w sources days keywords acc :
  fold_left
    (λ all_articles source,
       match fetch w source days keywords with
       | Some articles => all_articles ++ articles
       | None => all_articles
       end)
    sources acc
  = acc ++ concat ((λ source, default [] (fetch w source days keywords))
                   <$> sources).
Proof.
  revert acc. induction sources as [|s sources IH]; intros acc; simpl.
  - by rewrite app_nil_r.
  - rewrite IH. destruct (fetch w s days keywords); simpl; [|done].
    by rewrite <- app_assoc.
Qed.

End StageFacts.

(** X19. [create_sources] makes one source for each configuration entry
    that is enabled and well-formed, in the order of the configuration, and
    none for the others. *)
Theorem create_sources_skips_unusable (config : Config.Config) :
  Pipeline.create_sources config = omap Spec.source_of (Config.sources config).
Proof. apply (create_sources_from _ []). Qed.

(** X20. [fetch_all_sources] returns what the sources return, one after
    the other in the order of the sources; a source whose fetch raises adds
    nothing and stops nothing. *)
Theorem fetch_all_sources_tolerates_failures
    (w : Pipeline.World) (sources : list Pipeline.Source) (days : Z)
    (keywords : list string) :
  Pipeline.fetch_all_sources w sources days keywords
  = concat ((λ source, default [] (Pipeline.fetch w source days keywords))
            <$> sources).
Proof. apply (fetch_all_from _ _ _ _ []). Qed.

(** X21. The articles [filter_seen] keeps are those whose locators
    [filter_unseen] keeps, in the same order. *)
Theorem filter_seen_agrees_with_filter_unseen
    (articles : list Models.RawArticle) (seen_store : Seen.SeenStore) :
  Models.url <$> Pipeline.filter_seen articles seen_store
  = Seen.filter_unseen seen_store (Models.url <$> articles).
Proof.
  unfold Pipeline.filter_seen, Seen.filter_unseen.
  induction articles as [|a articles IH]; [done|].
  rewrite fmap_cons, !filter_cons.
  destruct (decide (Seen.is_seen seen_store (Models.url a) = false));
    [|done].
  by rewrite fmap_cons, IH.
Qed.

(** X22. [classify_articles] returns exactly the articles that [classify]
    flags relevant, in the order of the input, each with the
    classification [classify] returned. *)
Theorem classify_articles_keeps_the_relevant
    (w : Pipeline.World) (articles : list Models.RawArticle)
    (relevant_articles : list Models.ClassifiedArticle) :
  Pipeline.classify_articles w articles = Return relevant_articles →
  sublist (Models.article <$> relevant_articles) articles
  ∧ Forall (λ c, Models.relevant (Models.classification c) = true
                 ∧ Relevance.classify (Pipeline.json_loads w)
                     (Pipeline.messages_create w) (Models.article c)
                   = Return (Models.classification c)) relevant_articles
  ∧ ∀ a r, a ∈ articles →
           Relevance.classify (Pipeline.json_loads w)
             (Pipeline.messages_create w) a = Return r →
           Models.relevant r = true →
           {| Models.article := a; Models.classification := r |}
           ∈ relevant_articles.
Proof.
  unfold Pipeline.classify_articles.
  destruct (Relevance.classify_batch _ _ _) as [cs| |] eqn:Hb; simpl; try done.
  intros [= <-]. apply classify_batch_members in Hb.
  split; [|split].
  - assert (Models.article <$> cs = articles) as <-.
    { clear -Hb. induction Hb as [|???? [<- _] _ IH]; [done|].
      by rewrite fmap_cons, IH. }
    apply fmap_sublist, sublist_filter.
  - apply Forall_forall. intros c [Hrel Hc]%list_elem_of_filter.
    split; [done|]. apply list_elem_of_lookup in Hc as [i Hi].
    by destruct (Forall2_lookup_r _ _ _ _ _ Hb Hi) as (a & _ & <- & ?).
  - intros a r Ha Hr Hrel. apply list_elem_of_filter. split; [done|].
    apply list_elem_of_lookup in Ha as [i Hi].
    destruct (Forall2_lookup_l _ _ _ _ _ Hb Hi) as (c & Hc & Hart & Hcls).
    apply list_elem_of_lookup_2 in Hc. rewrite Hr in Hcls.
    injection Hcls as ->. destruct c. simpl in *. by subst.
Qed.

Lemma classify_articles_keeps_the_relevant_witness :
  let kept := [{| Models.article := Examples.ynet_raid;
                  Models.classification := Examples.brothel_closure |}] in
  Pipeline.classify_articles Examples.world Examples.ynet_feed = Return kept
  ∧ sublist (Models.article <$> kept) Examples.ynet_feed
  ∧ Forall (λ c, Models.relevant (Models.classification c) = true
                 ∧ Relevance.classify (Pipeline.json_loads Examples.world)
                     (Pipeline.messages_create Examples.world) (Models.article c)
                   = Return (Models.classification c)) kept
  ∧ ∀ a r, a ∈ Examples.ynet_feed →
           Relevance.classify (Pipeline.json_loads Examples.world)
             (Pipeline.messages_create Examples.world) a = Return r →
           Models.relevant r = true →
           {| Models.article := a; Models.classification := r |} ∈ kept.
Proof.
  intros kept.
  assert (Pipeline.classify_articles Examples.world Examples.ynet_feed
          = Return kept) as Hkept.
  { vm_compute. reflexivity. }
  split; [exact Hkept|].
  exact (classify_articles_keeps_the_relevant _ _ _ Hkept).
Defined.

(** ** The keyword filter *)
Section KeywordFacts.
Import Rss.

Lemma startswith_spec needle hay :
  startswith needle hay = true ↔ ∃ post, hay = needle ++ post.
Proof.
  revert hay. induction needle as [|c needle IH]; intros hay; simpl.
  - split; [by exists hay|done].
  - destruct hay as [|d hay].
    + split; [done|]. by intros [post Hpost].
    + rewrite andb_true_iff, bool_decide_eq_true, IH. split.
      * intros [-> [post ->]]. by exists post.
      * intros [post [= -> ->]]. split; [done|]. by exists post.
Qed.

Lemma contains_spec needle hay :
  contains needle hay = true ↔ ∃ pre post, hay = pre ++ needle ++ post.
Proof.
  induction hay as [|d hay IH].
  - cbn [contains]. rewrite orb_false_r, startswith_spec. split.
    + intros [post Hpost]. by exists [], post.
    + intros (pre & post & Heq). symmetry in Heq.
      apply app_eq_nil in Heq as [_ [-> _]%app_eq_nil]. by exists [].
  - cbn [contains]. rewrite orb_true_iff, startswith_spec, IH. split.
    + intros [[post Hpost] | (pre & post & Hhay)].
      * by exists [], post.
      * exists (d :: pre), post. by rewrite Hhay.
    + intros (pre & post & Heq). destruct pre as [|d' pre].
      * left. by exists post.
      * right. injection Heq as _ Heq. by exists pre, post.
Qed.

Lemma lower_app (s1 s2 : string) : lower (s1 ++ s2) = lower s1 ++ lower s2.
Proof. unfold lower. by rewrite list_ascii_of_string_app, fmap_app. Qed.

Lemma lower_char_lower_char c : lower_char (lower_char c) = lower_char c.
Proof. by destruct c as [[] [] [] [] [] [] [] []]. Qed.

Lemma lower_lowered s : lower (Spec.lowered s) = lower s.
Proof.
  unfold Spec.lowered, lower.
  rewrite list_ascii_of_string_of_list_ascii, <- list_fmap_compose.
  apply list_fmap_ext. intros _ c _. apply lower_char_lower_char.
Qed.

Lemma matches_keywords_spec title snippet keywords :
  _matches_keywords title snippet keywords = true
  ↔ ∃ kw pre post,
      kw ∈ keywords
      ∧ lower title ++ " "%char :: lower snippet = pre ++ lower kw ++ post.
Proof.
  unfold _matches_keywords. rewrite existsb_exists, !lower_app.
  change (lower " ") with [" "%char]. cbn [app]. split.
  - intros (kw & Hkw%list_elem_of_In & (pre & post & Heq)%contains_spec).
    by exists kw, pre, post.
  - intros (kw & pre & post & Hkw & Heq). exists kw.
    split; [by apply list_elem_of_In|]. apply contains_spec. by exists pre, post.
Qed.

End KeywordFacts.

(** X23. [_matches_keywords] holds exactly when some keyword, in lower
    case, occurs as a contiguous run of the lowered title, one space and
    the lowered snippet. *)
Theorem matches_keywords_iff_some_keyword_occurs
    (title snippet : string) (keywords : list string) :
  Rss._matches_keywords title snippet keywords = true
  ↔ ∃ kw pre post,
      kw ∈ keywords
      ∧ lower title ++ " "%char :: lower snippet = pre ++ lower kw ++ post.
Proof. apply matches_keywords_spec. Qed.


(** X25. The match ignores case: lowering the title, the snippet and the
    keywords beforehand changes nothing. *)
Theorem matches_keywords_ignores_case
    (title snippet : string) (keywords : list string) :
  Rss._matches_keywords (Spec.lowered title) (Spec.lowered snippet)
    (Spec.lowered <$> keywords)
  = Rss._matches_keywords title snippet keywords.
Proof.
  apply eq_true_iff_eq. rewrite !matches_keywords_spec, !lower_lowered. split.
  - intros (kw' & pre & post & (kw & -> & Hkw)%list_elem_of_fmap & Heq).
    rewrite lower_lowered in Heq. by exists kw, pre, post.
  - intros (kw & pre & post & Hkw & Heq).
    exists (Spec.lowered kw), pre, post. rewrite lower_lowered.
    split; [|done]. apply list_elem_of_fmap. by exists kw.
Qed.

(** ** What a run reports and records *)








